(** * CairoSVG text drawers ([cairosvg/surface/text.py])

    A shallow embedding of the two text drawers of CairoSVG, [text]
    (per-character [x]/[y]/[dx]/[dy]/[rotate] arrays) and [text_path]
    (glyphs flowed along a flattened path), together with the two path
    measuring functions [path_length] and [point_following_path].

    Numbers are Python floats in the source; they are modelled by the real
    numbers of the Standard Library, so every statement below is about the
    exact arithmetic the floats approximate.  Python exceptions are values
    of [exn]; the mutable [surface] object is threaded explicitly. *)

From Stdlib Require Import Reals Lra List String Ascii.
From stdpp Require Import gmap strings.
Import ListNotations.
Open Scope R_scope.

(** ** Python values and exceptions *)

Inductive exn : Type :=
| UnboundLocalError   (* a local variable read before any assignment *)
| TypeError           (* unpacking [None] *)
| IndexError          (* [l[-1]] on an empty list *)
| ValueError          (* [float(s)] on a string that is no number *)
| CairoError.         (* the cairo context was used out of protocol *)

Inductive result (A : Type) : Type :=
| Ok (a : A)
| Raise (e : exn).
Arguments Ok {A} a.
Arguments Raise {A} e.

Definition point : Type := R * R.

(** ** Helpers of [cairosvg/surface/helpers.py] *)

(** Python's [math.atan2 y x], the two-argument arctangent: the angle of
    the vector [(x, y)] in ]-PI, PI], and [0] at the origin. *)
Definition atan2 (y x : R) : R :=
  if Rlt_dec 0 x then atan (y / x)
  else if Rlt_dec x 0 then
    (if Rle_dec 0 y then atan (y / x) + PI else atan (y / x) - PI)
  else if Rlt_dec 0 y then PI / 2
  else if Rlt_dec y 0 then - (PI / 2)
  else 0.

(** Modelled from the spec: [helpers.distance] is imported by [text.py] but
    its file is not part of the sources at hand.  The spec (4.1) gives it as
    the Euclidean norm of the difference of the two points. *)
Definition distance (x1 y1 x2 y2 : R) : R :=
  sqrt ((x2 - x1) * (x2 - x1) + (y2 - y1) * (y2 - y1)).

(** Modelled from the spec: [helpers.point_angle] is imported by [text.py]
    but its file is not part of the sources at hand.  The spec (4.1) gives it
    as the two-argument arctangent of (dy, dx) between the two points. *)
Definition point_angle (cx cy px py : R) : R :=
  atan2 (py - cy) (px - cx).

(** ** Flattened cairo paths

    A cairo path is a sequence of items [(type, points)].  Only
    [PATH_MOVE_TO] and [PATH_LINE_TO] are inspected by the measurer; the
    other two kinds fall through both branches of its [if]/[elif]. *)

Inductive path_item : Type :=
| PATH_MOVE_TO (p : point)
| PATH_LINE_TO (p : point)
| PATH_CURVE_TO (p1 p2 p3 : point)
| PATH_CLOSE_PATH.

Definition path : Type := list path_item.

(** [path_length], lines 35-47.  The loop is unrolled as a recursion on the
    remaining items, carrying the two locals [total_length] and [old_point];
    [old_point] is unbound until the first [PATH_MOVE_TO]. *)
Fixpoint path_length_from (total_length : R) (old_point : option point)
    (items : path) : result R :=
  match items with
  | [] => Ok total_length
  | PATH_MOVE_TO p :: rest => path_length_from total_length (Some p) rest
  | PATH_LINE_TO new_point :: rest =>
      match old_point with
      | None => Raise UnboundLocalError
      | Some old_point =>
          let length :=
            distance (fst old_point) (snd old_point)
                     (fst new_point) (snd new_point) in
          path_length_from (total_length + length) (Some new_point) rest
      end
  | _ :: rest => path_length_from total_length old_point rest
  end.

Definition path_length (p : path) : result R :=
  path_length_from 0 None p.

(** [point_following_path], lines 50-69.  Falling off the end of the loop
    returns Python's [None], here [Ok None]. *)
Fixpoint point_following_path_from (total_length : R)
    (old_point : option point) (items : path) (width : R)
    : result (option point) :=
  match items with
  | [] => Ok None
  | PATH_MOVE_TO p :: rest =>
      point_following_path_from total_length (Some p) rest width
  | PATH_LINE_TO new_point :: rest =>
      match old_point with
      | None => Raise UnboundLocalError
      | Some old_point =>
          let length :=
            distance (fst old_point) (snd old_point)
                     (fst new_point) (snd new_point) in
          let total_length := total_length + length in
          if Rlt_dec total_length width then
            point_following_path_from total_length (Some new_point) rest width
          else
            let length := length - (total_length - width) in
            let angle :=
              point_angle (fst old_point) (snd old_point)
                          (fst new_point) (snd new_point) in
            Ok (Some (cos angle * length + fst old_point,
                      sin angle * length + snd old_point))
      end
  | _ :: rest => point_following_path_from total_length old_point rest width
  end.

Definition point_following_path (p : path) (width : R)
    : result (option point) :=
  point_following_path_from 0 None p width.

(** ** Python strings *)

Open Scope string_scope.

(** [needle in hay] on Python strings. *)
Fixpoint contains (needle hay : string) : bool :=
  String.prefix needle hay ||
  match hay with
  | EmptyString => false
  | String _ rest => contains needle rest
  end.

(** [s.startswith(p)] and [s[1:]]. *)
Definition startswith (p s : string) : bool := String.prefix p s.

Definition drop_first (s : string) : string :=
  match s with
  | EmptyString => EmptyString
  | String _ rest => rest
  end.

(** The characters Python's [str.strip()] removes. *)
Definition is_whitespace (c : ascii) : bool :=
  let n := nat_of_ascii c in
  (Nat.eqb n 32 || (Nat.leb 9 n && Nat.leb n 13))%bool.

Fixpoint lstrip (s : string) : string :=
  match s with
  | EmptyString => EmptyString
  | String c rest => if is_whitespace c then lstrip rest else s
  end.

(** [rstrip] keeps a character when it is no whitespace or when something
    is left after it. *)
Fixpoint rstrip (s : string) : string :=
  match s with
  | EmptyString => EmptyString
  | String c rest =>
      match rstrip rest with
      | EmptyString => if is_whitespace c then EmptyString
                       else String c EmptyString
      | rest' => String c rest'
      end
  end.

Definition strip (s : string) : string := rstrip (lstrip s).

(** [s.split(" ")]: cut at every single space; never the empty list. *)
Fixpoint split_space (s : string) : list string :=
  match s with
  | EmptyString => [EmptyString]
  | String c rest =>
      if Ascii.eqb c " "%char then EmptyString :: split_space rest
      else match split_space rest with
           | piece :: pieces => String c piece :: pieces
           | [] => [String c EmptyString]
           end
  end.

(** [for letter in s]: the one-character strings of [s], in order. *)
Fixpoint letters_of (s : string) : list string :=
  match s with
  | EmptyString => []
  | String c rest => String c EmptyString :: letters_of rest
  end.

(** What [node.get(key, default)] can hand to [size] and [float]. *)
Inductive pyval : Type :=
| PyNone
| PyInt (z : Z)
| PyStr (s : string).

Definition of_attr (o : option string) : pyval :=
  match o with
  | Some s => PyStr s
  | None => PyNone
  end.

(** The [reference] argument of [units.size]: the default ["xy"], an axis,
    or a length percentages are taken of. *)
Inductive reference : Type :=
| RefXY
| RefX
| RefY
| RefLength (l : R).

(** [math.radians]. *)
Definition radians (deg : R) : R := deg * PI / 180.

(** ** Nodes *)

(** A node is a dict of attributes with a [text] member. *)
Record Node : Type := mkNode {
  node_attrs : gmap string string;
  node_text : string
}.

Definition node_get (node : Node) (key : string) : option string :=
  node_attrs node !! key.

Definition xlink_href : string := "{http://www.w3.org/1999/xlink}href".

(** Lines 75-76: [if not node.get("fill"): node["fill"] = "#000000"]. *)
Definition set_default_fill (node : Node) : Node :=
  match node_get node "fill" with
  | Some (String _ _) => node
  | _ => mkNode (<["fill" := "#000000"]> (node_attrs node)) (node_text node)
  end.

(** ** The cairo context *)

(** A [cairo_matrix_t]: [(x, y)] goes to
    [(xx*x + xy*y + x0, yx*x + yy*y + y0)]. *)
Record matrix : Type := mkMatrix {
  xx : R; yx : R; xy : R; yy : R; x0 : R; y0 : R
}.

Definition identity_matrix : matrix := mkMatrix 1 0 0 1 0 0.

Definition det (m : matrix) : R := xx m * yy m - yx m * xy m.

Definition transform_point (m : matrix) (p : point) : point :=
  (xx m * fst p + xy m * snd p + x0 m, yx m * fst p + yy m * snd p + y0 m).

Definition transform_distance (m : matrix) (d : point) : point :=
  (xx m * fst d + xy m * snd d, yx m * fst d + yy m * snd d).

(** Device to user space, as [cairo_device_to_user] does it. *)
Definition inverse_transform_point (m : matrix) (p : point) : point :=
  (( yy m * (fst p - x0 m) - xy m * (snd p - y0 m)) / det m,
   (- yx m * (fst p - x0 m) + xx m * (snd p - y0 m)) / det m).

(** [cairo_translate] and [cairo_rotate] apply the new transformation to the
    user coordinates first, the former matrix after it. *)
Definition matrix_translate (m : matrix) (tx ty : R) : matrix :=
  mkMatrix (xx m) (yx m) (xy m) (yy m)
           (xx m * tx + xy m * ty + x0 m) (yx m * tx + yy m * ty + y0 m).

Definition matrix_rotate (m : matrix) (a : R) : matrix :=
  mkMatrix (xx m * cos a + xy m * sin a) (yx m * cos a + yy m * sin a)
           (xy m * cos a - xx m * sin a) (yy m * cos a - yx m * sin a)
           (x0 m) (y0 m).

(** Ink extents as cairo returns them, a 6-tuple. *)
Record extents : Type := mkExtents {
  x_bearing : R; y_bearing : R; width : R; height : R;
  x_advance : R; y_advance : R
}.

(** One glyph handed to cairo: the letter, the transformation in force and
    the current point (device space) it is put at. *)
Record glyph : Type := mkGlyph {
  glyph_letter : string;
  glyph_matrix : matrix;
  glyph_origin : point
}.

(** [s.upper()] on ASCII letters. *)
Definition upper_char (c : ascii) : ascii :=
  let n := nat_of_ascii c in
  if (Nat.leb 97 n && Nat.leb n 122)%bool then ascii_of_nat (n - 32) else c.

Fixpoint upper (s : string) : string :=
  match s with
  | EmptyString => EmptyString
  | String c rest => String (upper_char c) (upper rest)
  end.

(** [s.split(",")[0]]. *)
Fixpoint before_comma (s : string) : string :=
  match s with
  | EmptyString => EmptyString
  | String c rest =>
      if Ascii.eqb c ","%char then EmptyString else String c (before_comma rest)
  end.

(** ["%s" % v] for an attribute that may be missing. *)
Definition percent_s (o : option string) : string :=
  match o with
  | Some s => s
  | None => "None"
  end.

(** [o or d] for an optional string: the empty string is falsy too. *)
Definition or_else (o : option string) (d : string) : string :=
  match o with
  | Some (String c rest) => String c rest
  | _ => d
  end.

(** A font face and size as [select_font_face] and [set_font_size] take
    them. *)
Record Font : Type := mkFont {
  font_family : string;
  font_slant : Z;
  font_weight : Z;
  font_size : R
}.

(** An RGBA source, the tuple [colors.color] returns. *)
Definition Colour : Type := (R * R * R * R)%type.

(** The part of the graphics state [save] and [restore] handle. *)
Record gstate : Type := mkGstate {
  gs_matrix : matrix;
  gs_font : Font;
  gs_source : Colour
}.

(** The cairo context: graphics state, stack of saved states, current
    point (kept in device space, as cairo does), the glyph outlines
    [Context.text_path] has added to the current path, and the glyphs
    [Context.show_text] has painted. *)
Record Context : Type := mkContext {
  ctx_state : gstate;
  ctx_saved : list gstate;
  ctx_current_point : option point;
  ctx_outlines : list glyph;
  ctx_shown : list glyph
}.

(** The surface members the text drawers touch.  [paths] maps an identifier
    to the node registered under it. *)
Record surface : Type := mkSurface {
  context : Context;
  cursor_position : point;
  total_width : R;
  paths : gmap string Node;
  stroke_and_fill : bool
}.

(** ** Sample data

    A fixed monospace font stub (every glyph advances by 10), a [size] that
    reads a few literals, and a clean surface. *)

Definition mono_extents (f : Font) (s : string) : extents :=
  mkExtents 0 0 (8 * INR (String.length s)) 10 (10 * INR (String.length s)) 0.

Definition sample_float (s : string) : option R :=
  if String.eqb s "0" then Some 0
  else if String.eqb s "10" then Some 10
  else if String.eqb s "20" then Some 20
  else if String.eqb s "25" then Some 25
  else None.

Definition sample_size (v : pyval) (ref : reference) : R :=
  match v with
  | PyStr s => match sample_float s with Some r => r | None => 0 end
  | _ => 0
  end.

Definition sample_color (fill : option string) : Colour := (0, 0, 0, 1).

Definition sample_font : Font := mkFont "sans-serif" 0 0 12.

Definition sample_context : Context :=
  mkContext (mkGstate identity_matrix sample_font (0, 0, 0, 1)) [] None [] [].

Definition segment_path : path :=
  [PATH_MOVE_TO (0, 0); PATH_LINE_TO (10, 0)].

Definition corner_path : path :=
  [PATH_MOVE_TO (0, 0); PATH_LINE_TO (10, 0); PATH_LINE_TO (10, 10)].

Definition sample_flat (shape : Node) : path :=
  if String.eqb (node_text shape) "corner" then corner_path else segment_path.

(** A font whose capital W is wide and whose other glyphs are narrow. *)
Definition ragged_extents (f : Font) (s : string) : extents :=
  if String.eqb s "W" then mkExtents 0 0 12 10 13 0
  else mkExtents 0 0 1 10 1 0.

Definition sample_normalize (s : string) : string := s.

Definition sample_cairo_attr (name : string) : option Z := None.

(** A path-text node referring to the path ["p"], starting 25 units along
    it. *)
Definition offset_node : Node :=
  mkNode (<[xlink_href := "#p"]> (<["startOffset" := "25"]> ∅)) "ab".

(** A text node with two angles for five letters. *)
Definition rotated_node : Node :=
  mkNode (<["rotate" := "10 20"]> ∅) "abcde".

(** A path-text node referring to the path ["c"]. *)
Definition linked_node : Node :=
  mkNode (<[xlink_href := "#c"]> ∅) "abcd".

(** A node whose [rotate] attribute is no number. *)
Definition unread_rotate_node : Node :=
  mkNode (<["rotate" := "upright"]> ∅) "ab".

(** A font stub whose ink starts 2 units right of the origin, and a text
    node of five letters anchored at its middle. *)
Definition inked_extents (f : Font) (s : string) : extents :=
  mkExtents 2 0 (8 * INR (String.length s)) 10 (10 * INR (String.length s)) 0.

Definition anchored_node : Node :=
  mkNode (<["text-anchor" := "middle"]> ∅) "abcde".

(** Nodes without attributes. *)
Definition plain_node : Node := mkNode ∅ "abcd".

Definition empty_node : Node := mkNode ∅ "".

Definition sample_surface : surface :=
  mkSurface sample_context (3, 4) 0
            (<["p" := mkNode ∅ "segment"]> (<["c" := mkNode ∅ "corner"]> ∅))
            true.

(** ** The two drawers *)

Section Drawers.

(** External collaborators, fixed for one rendering pass. *)

(** [units.size(surface, string, reference)]. *)
Variable size : pyval -> reference -> R.
(** [helpers.normalize]. *)
Variable normalize : string -> string.
(** [float(s)] on a string; [None] when Python raises [ValueError]. *)
Variable float_of_string : string -> option R.
(** [colors.color]. *)
Variable color : option string -> Colour.
(** [getattr(cairo, name, ...)] and the two default constants. *)
Variable cairo_attr : string -> option Z.
Variables FONT_SLANT_NORMAL FONT_WEIGHT_NORMAL : Z.
(** [context.text_extents(s)] under the font in force. *)
Variable text_extents : Font -> string -> extents.
(** [surface.draw(shape)] with [stroke_and_fill] off, followed by
    [context.copy_path_flat()]: the flattened outline of a shape.  Drawing
    is outside this file; it is taken to leave the surface as it was, but
    for the current path, which [new_path] discards right after. *)
Variable copy_path_flat : Node -> path.

(** *** Statements: state passing with exceptions

    A statement maps the surface to a result and the surface it leaves;
    what was mutated before an exception stays mutated. *)

Definition M (A : Type) : Type := surface -> result A * surface.

#[local] Instance M_ret : MRet M := fun A a s => (Ok a, s).

#[local] Instance M_bind : MBind M := fun A B f m s =>
  match m s with
  | (Ok a, s') => f a s'
  | (Raise e, s') => (Raise e, s')
  end.

Definition raise {A : Type} (e : exn) : M A := fun s => (Raise e, s).

Definition lift {A : Type} (r : result A) : M A := fun s => (r, s).

Definition get_surface : M surface := fun s => (Ok s, s).

Definition set_context (c : Context) : M unit := fun s =>
  (Ok tt, mkSurface c (cursor_position s) (total_width s) (paths s)
                    (stroke_and_fill s)).

Definition set_cursor_position (p : point) : M unit := fun s =>
  (Ok tt, mkSurface (context s) p (total_width s) (paths s)
                    (stroke_and_fill s)).

Definition set_total_width (w : R) : M unit := fun s =>
  (Ok tt, mkSurface (context s) (cursor_position s) w (paths s)
                    (stroke_and_fill s)).

Definition set_stroke_and_fill (b : bool) : M unit := fun s =>
  (Ok tt, mkSurface (context s) (cursor_position s) (total_width s)
                    (paths s) b).

(** *** Methods of [surface.context] *)

Definition ctx_matrix (c : Context) : matrix := gs_matrix (ctx_state c).

Definition with_state (c : Context) (g : gstate) : Context :=
  mkContext g (ctx_saved c) (ctx_current_point c)
            (ctx_outlines c) (ctx_shown c).

Definition with_matrix (c : Context) (m : matrix) : Context :=
  with_state c (mkGstate m (gs_font (ctx_state c)) (gs_source (ctx_state c))).

Definition with_current_point (c : Context) (p : option point) : Context :=
  mkContext (ctx_state c) (ctx_saved c) p (ctx_outlines c) (ctx_shown c).

Definition ctx_save : M unit :=
  s ← get_surface;
  let c := context s in
  set_context (mkContext (ctx_state c) (ctx_state c :: ctx_saved c)
                         (ctx_current_point c)
                         (ctx_outlines c) (ctx_shown c)).

Definition ctx_restore : M unit :=
  s ← get_surface;
  let c := context s in
  match ctx_saved c with
  | [] => raise CairoError
  | g :: saved =>
      set_context (mkContext g saved (ctx_current_point c)
                             (ctx_outlines c) (ctx_shown c))
  end.

Definition ctx_select_font_face (family : string) (slant weight : Z)
    : M unit :=
  s ← get_surface;
  let c := context s in
  let g := ctx_state c in
  set_context
    (with_state c (mkGstate (gs_matrix g)
                            (mkFont family slant weight
                                    (font_size (gs_font g)))
                            (gs_source g))).

Definition ctx_set_font_size (sz : R) : M unit :=
  s ← get_surface;
  let c := context s in
  let g := ctx_state c in
  let f := gs_font g in
  set_context
    (with_state c (mkGstate (gs_matrix g)
                            (mkFont (font_family f) (font_slant f)
                                    (font_weight f) sz)
                            (gs_source g))).

Definition ctx_set_source_rgba (rgba : Colour) : M unit :=
  s ← get_surface;
  let c := context s in
  let g := ctx_state c in
  set_context (with_state c (mkGstate (gs_matrix g) (gs_font g) rgba)).

Definition ctx_text_extents (str : string) : M extents :=
  s ← get_surface;
  mret (text_extents (gs_font (ctx_state (context s))) str).

Definition ctx_move_to (x y : R) : M unit :=
  s ← get_surface;
  let c := context s in
  set_context
    (with_current_point c (Some (transform_point (ctx_matrix c) (x, y)))).

Definition ctx_rel_move_to (dx dy : R) : M unit :=
  s ← get_surface;
  let c := context s in
  match ctx_current_point c with
  | None => raise CairoError
  | Some p =>
      let d := transform_distance (ctx_matrix c) (dx, dy) in
      set_context
        (with_current_point c (Some (fst p + fst d, snd p + snd d)))
  end.

Definition ctx_get_current_point : M point :=
  s ← get_surface;
  let c := context s in
  match ctx_current_point c with
  | None => mret (0, 0)
  | Some p => mret (inverse_transform_point (ctx_matrix c) p)
  end.

Definition ctx_translate (tx ty : R) : M unit :=
  s ← get_surface;
  let c := context s in
  set_context (with_matrix c (matrix_translate (ctx_matrix c) tx ty)).

Definition ctx_rotate (a : R) : M unit :=
  s ← get_surface;
  let c := context s in
  set_context (with_matrix c (matrix_rotate (ctx_matrix c) a)).

Definition ctx_new_path : M unit :=
  s ← get_surface;
  let c := context s in
  set_context (mkContext (ctx_state c) (ctx_saved c) None [] (ctx_shown c)).

(** Where cairo puts the next glyph, and where the current point is after
    it: the origin moved by the glyph's advance. *)
Definition glyph_at (c : Context) (letter : string) : glyph * option point :=
  let m := ctx_matrix c in
  let origin :=
    match ctx_current_point c with
    | Some p => p
    | None => transform_point m (0, 0)
    end in
  let e := text_extents (gs_font (ctx_state c)) letter in
  let d := transform_distance m (x_advance e, y_advance e) in
  (mkGlyph letter m origin, Some (fst origin + fst d, snd origin + snd d)).

(** [Context.text_path(letter)]: the glyph's outline joins the current
    path. *)
Definition ctx_text_path (letter : string) : M unit :=
  s ← get_surface;
  let c := context s in
  let g := glyph_at c letter in
  set_context (mkContext (ctx_state c) (ctx_saved c) (snd g)
                         (ctx_outlines c ++ [fst g]) (ctx_shown c)).

(** [Context.show_text(letter)]: the glyph is painted at once. *)
Definition ctx_show_text (letter : string) : M unit :=
  s ← get_surface;
  let c := context s in
  let g := glyph_at c letter in
  set_context (mkContext (ctx_state c) (ctx_saved c) (snd g)
                         (ctx_outlines c) (ctx_shown c ++ [fst g])).

(** *** [text], lines 72-145 *)

(** [float(v)]. *)
Definition float (v : pyval) : result R :=
  match v with
  | PyNone => Raise TypeError
  | PyInt z => Ok (IZR z)
  | PyStr s =>
      match float_of_string s with
      | Some r => Ok r
      | None => Raise ValueError
      end
  end.

(** [normalize(s).strip().split(" ")]. *)
Definition split_attr (s : string) : list string :=
  split_space (strip (normalize s)).

(** [[float(size(surface, i, ref)) for i in pieces]]. *)
Definition lengths (ref : reference) (pieces : list string) : list R :=
  map (fun i => size (PyStr i) ref) pieces.

(** [[radians(float(i)) for i in pieces]], raising at the first piece
    that is no number. *)
Fixpoint rotations (pieces : list string) : result (list R) :=
  match pieces with
  | [] => Ok []
  | i :: rest =>
      match float (PyStr i) with
      | Raise e => Raise e
      | Ok deg =>
          match rotations rest with
          | Raise e => Raise e
          | Ok rs => Ok (radians deg :: rs)
          end
      end
  end.

(** [l[-1]]. *)
Definition last_item (l : list R) : result R :=
  match last l with
  | Some v => Ok v
  | None => Raise IndexError
  end.

(** Lines 110-116. *)
Definition x_align (text_anchor : option string) (width x_bearing : R) : R :=
  match text_anchor with
  | Some anchor =>
      if String.eqb anchor "middle" then width / 2 + x_bearing
      else if String.eqb anchor "end" then width + x_bearing
      else 0
  | None => 0
  end.

(** One slot per attribute array: a value, or [None] once the array is
    used up. *)
Definition position : Type :=
  (option R * option R * option R * option R * option R)%type.

(** Modelled from the spec: [helpers.zip_letters] is imported by [text.py]
    but its file is not part of the sources at hand.  The spec (4.2) has
    it pair every character with, for each array, the array's value at the
    character's index, or "unspecified" beyond the array's length. *)
Fixpoint zip_letters (xl yl dxl dyl rl : list R) (word : list string)
    : list (position * string) :=
  match word with
  | [] => []
  | char :: word' =>
      ((head xl, head yl, head dxl, head dyl, head rl), char)
        :: zip_letters (tail xl) (tail yl) (tail dxl) (tail dyl) (tail rl)
                       word'
  end.

(** Lines 125-134: the [is None] fallbacks of one character. *)
Definition resolve (cursor : point) (last_r : R) (pos : position)
    : R * R * R * R * R :=
  let '(x, y, dx, dy, r) := pos in
  (default (fst cursor) x, default (snd cursor) y,
   default 0 dx, default 0 dy, default last_r r).

(** Lines 124-145: the body of the loop, for one character. *)
Definition text_letter (x_align last_r : R) (pos : position)
    (letter : string) : M unit :=
  ctx_save;;
  s ← get_surface;
  let '(x, y, dx, dy, r) := resolve (cursor_position s) last_r pos in
  ctx_move_to (x + dx) (y + dy);;
  ctx_rel_move_to (- x_align) 0;;
  cursor_position ← ctx_get_current_point;
  ctx_rotate r;;
  ctx_text_path letter;;
  ctx_restore;;
  ctx_move_to (fst cursor_position) (snd cursor_position);;
  te ← ctx_text_extents letter;
  ctx_rel_move_to (x_advance te) (y_advance te);;
  ctx_rel_move_to x_align 0;;
  p ← ctx_get_current_point;
  set_cursor_position p.

Fixpoint text_letters (x_align last_r : R)
    (letters_positions : list (position * string)) : M unit :=
  match letters_positions with
  | [] => mret tt
  | (pos, letter) :: rest =>
      text_letter x_align last_r pos letter;;
      text_letters x_align last_r rest
  end.

(** Lines 78-85. *)
Definition node_font_size (node : Node) : R :=
  size (PyStr (default "12pt" (node_get node "font-size"))) RefXY.

Definition node_font_family (node : Node) : string :=
  before_comma (or_else (node_get node "font-family") "sans-serif").

Definition node_font_style (node : Node) : Z :=
  default FONT_SLANT_NORMAL
    (cairo_attr (upper ("font_slant_" ++ percent_s (node_get node "font-style")))).

Definition node_font_weight (node : Node) : Z :=
  default FONT_WEIGHT_NORMAL
    (cairo_attr (upper ("font_weight_" ++ percent_s (node_get node "font-weight")))).

(** Lines 93-108: an attribute array, or its default when the attribute
    is missing. *)
Definition lengths_of (node : Node) (key : string) (ref : reference)
    (missing : list R) : list R :=
  match node_get node key with
  | Some v => lengths ref (split_attr v)
  | None => missing
  end.

Definition rotations_of (node : Node) : result (list R) :=
  match node_get node "rotate" with
  | Some v => rotations (split_attr v)
  | None => Ok [0]
  end.

(** The alignment offset of a run, from the extents of its whole text. *)
Definition text_x_align (node : Node) (te : extents) : R :=
  x_align (node_get node "text-anchor") (width te) (x_bearing te).

(** Lines 86-87. *)
Definition select_font (node : Node) : M unit :=
  ctx_select_font_face (node_font_family node) (node_font_style node)
                       (node_font_weight node);;
  ctx_set_font_size (node_font_size node).

Definition text (node : Node) : M unit :=
  let node := set_default_fill node in
  select_font node;;
  te ← ctx_text_extents (node_text node);
  let x := lengths_of node "x" RefX [] in
  let y := lengths_of node "y" RefY [] in
  let dx := lengths_of node "dx" RefX [0] in
  let dy := lengths_of node "dy" RefY [0] in
  rotate ← lift (rotations_of node);
  let x_align := text_x_align node te in
  if String.eqb (node_text node) "" then mret tt
  else
    last_dx ← lift (last_item dx);
    last_dy ← lift (last_item dy);
    last_r ← lift (last_item rotate);
    text_letters x_align last_r
      (zip_letters x y dx dy rotate (letters_of (node_text node))).

(** *** [text_path], lines 148-198 *)

(** Lines 177-193: the loop over the letters, carrying the point [(x, y)]
    the next glyph is put at.  A letter with no point on the path is
    passed over by [continue]. *)
Fixpoint text_path_letters (node : Node) (cairo_path : path)
    (letter_spacing : R) (xy : point) (letters : list string) : M unit :=
  match letters with
  | [] => mret tt
  | letter :: rest =>
      te ← ctx_text_extents letter;
      s ← get_surface;
      set_total_width (total_width s + (x_advance te + letter_spacing));;
      s ← get_surface;
      point_on_path ← lift (point_following_path cairo_path (total_width s));
      match point_on_path with
      | None => text_path_letters node cairo_path letter_spacing xy rest
      | Some (x2, y2) =>
          let angle := point_angle (fst xy) (snd xy) x2 y2 in
          ctx_save;;
          ctx_translate (fst xy) (snd xy);;
          rot ← lift (float (default (PyInt 0)
                                     (PyStr <$> node_get node "rotate")));
          ctx_rotate (angle + rot);;
          ctx_translate 0 (size (of_attr (node_get node "y")) RefY);;
          ctx_move_to 0 0;;
          ctx_show_text letter;;
          ctx_restore;;
          text_path_letters node cairo_path letter_spacing (x2, y2) rest
      end
  end.

(** Lines 150-151. *)
Definition set_fill_source (node : Node) : M unit :=
  if contains "url(#" (or_else (node_get node "fill") "") then mret tt
  else ctx_set_source_rgba (color (node_get node "fill")).

(** Lines 163-194, once the path is found. *)
Definition text_on (node path_node : Node) : M unit :=
  ctx_save;;
  set_stroke_and_fill false;;
  let cairo_path := copy_path_flat path_node in
  set_stroke_and_fill true;;
  ctx_new_path;;
  len ← lift (path_length cairo_path);
  let start_offset :=
    size (default (PyInt 0) (PyStr <$> node_get node "startOffset"))
         (RefLength len) in
  s ← get_surface;
  set_total_width (total_width s + start_offset);;
  s ← get_surface;
  found ← lift (point_following_path cairo_path (total_width s));
  match found with
  | None => raise TypeError
  | Some xy =>
      let letter_spacing :=
        size (of_attr (node_get node "letter-spacing")) RefXY in
      text_path_letters node cairo_path letter_spacing xy
                        (letters_of (node_text node));;
      ctx_restore
  end.

Definition text_path (node : Node) : M unit :=
  set_fill_source node;;
  let id_path := default "" (node_get node xlink_href) in
  if negb (startswith "#" id_path) then mret tt
  else
    let id_path := drop_first id_path in
    s ← get_surface;
    match paths s !! id_path with
    | None => mret tt
    | Some path_node =>
        text_on node path_node;;
        set_cursor_position (size (of_attr (node_get node "x")) RefX,
                             size (of_attr (node_get node "y")) RefY)
    end.

(** *** Quantities the statements below speak of *)

(** What one letter adds to [surface.total_width] in [text_path]. *)
Definition increment (f : Font) (letter_spacing : R) (letter : string) : R :=
  x_advance (text_extents f letter) + letter_spacing.

(** The values [surface.total_width] takes, one per letter. *)
Fixpoint running_widths (total_width : R) (increments : list R) : list R :=
  match increments with
  | [] => []
  | d :: rest => (total_width + d) :: running_widths (total_width + d) rest
  end.

Fixpoint sum_list (l : list R) : R :=
  match l with
  | [] => 0
  | d :: rest => d + sum_list rest
  end.

(** The font in force on a surface. *)
Definition surface_font (s : surface) : Font :=
  gs_font (ctx_state (context s)).

(** The transformation a glyph of [text_path] is painted under: translate
    to the previous point, rotate, shift along the rotated vertical. *)
Definition path_glyph_matrix (m : matrix) (xy : point) (angle y_shift : R)
    : matrix :=
  matrix_translate
    (matrix_rotate (matrix_translate m (fst xy) (snd xy)) angle) 0 y_shift.

(** A surface whose [total_width] has grown by [d]. *)
Definition widened (s : surface) (d : R) : surface :=
  mkSurface (context s) (cursor_position s) (total_width s + d) (paths s)
            (stroke_and_fill s).

(** Whether a path has a [PATH_LINE_TO] item. *)
Fixpoint has_line (items : path) : bool :=
  match items with
  | [] => false
  | PATH_LINE_TO _ :: _ => true
  | _ :: rest => has_line rest
  end.

(** The local [old_point] once the loop of [path_length] has gone through
    [items]. *)
Fixpoint last_point (old_point : option point) (items : path)
    : option point :=
  match items with
  | [] => old_point
  | PATH_MOVE_TO p :: rest => last_point (Some p) rest
  | PATH_LINE_TO p :: rest => last_point (Some p) rest
  | _ :: rest => last_point old_point rest
  end.

(** The point at the fraction [k] of the way from [o] to [n]. *)
Definition between (o n : point) (k : R) : point :=
  (fst o + k * (fst n - fst o), snd o + k * (snd n - snd o)).

(** Whether a query finds a point on the path. *)
Definition has_point (cairo_path : path) (w : R) : bool :=
  match point_following_path cairo_path w with
  | Ok (Some _) => true
  | _ => false
  end.

(** The letters of a run that get a glyph: those whose value of
    [total_width] has a point on the path. *)
Definition painted_letters (cairo_path : path) (w : R) (increments : list R)
    (letters : list string) : list string :=
  fst <$> List.filter (fun lw => has_point cairo_path (snd lw))
                      (combine letters (running_widths w increments)).

(** *** The path measurer *)

Lemma distance_horizontal (x1 x2 y : R) :
  x1 <= x2 -> distance x1 y x2 y = x2 - x1.
Proof.
  intros H. unfold distance.
  replace ((x2 - x1) * (x2 - x1) + (y - y) * (y - y))
    with ((x2 - x1) * (x2 - x1)) by ring.
  apply sqrt_square. lra.
Qed.

Lemma distance_vertical (x y1 y2 : R) :
  y1 <= y2 -> distance x y1 x y2 = y2 - y1.
Proof.
  intros H. unfold distance.
  replace ((x - x) * (x - x) + (y2 - y1) * (y2 - y1))
    with ((y2 - y1) * (y2 - y1)) by ring.
  apply sqrt_square. lra.
Qed.

Lemma distance_nonneg (x1 y1 x2 y2 : R) : 0 <= distance x1 y1 x2 y2.
Proof. unfold distance. apply sqrt_pos. Qed.

Lemma point_angle_rightwards (x1 x2 y : R) :
  x1 < x2 -> point_angle x1 y x2 y = 0.
Proof.
  intros H. unfold point_angle, atan2.
  destruct (Rlt_dec 0 (x2 - x1)) as [_ | N]; [ | lra ].
  replace ((y - y) / (x2 - x1)) with 0 by (field; lra).
  apply atan_0.
Qed.

Lemma point_angle_upwards (x y1 y2 : R) :
  y1 < y2 -> point_angle x y1 x y2 = PI / 2.
Proof.
  intros H. unfold point_angle, atan2.
  destruct (Rlt_dec 0 (x - x)) as [P | _]; [ lra | ].
  destruct (Rlt_dec (x - x) 0) as [P | _]; [ lra | ].
  destruct (Rlt_dec 0 (y2 - y1)) as [_ | N]; [ reflexivity | lra ].
Qed.

(** Without a [PATH_LINE_TO] nothing is measured and no point is found. *)
Lemma move_to_only (p : point) (d : R) :
  path_length [PATH_MOVE_TO p] = Ok 0 /\
  point_following_path [PATH_MOVE_TO p] d = Ok None.
Proof. split; reflexivity. Qed.

(** A query that finds no point finds none further along either. *)
Lemma point_following_path_from_none (items : path) :
  forall (total : R) (old : option point) (w w' : R),
    w <= w' ->
    point_following_path_from total old items w = Ok None ->
    point_following_path_from total old items w' = Ok None.
Proof.
  induction items as [ | item rest IH ]; intros total old w w' Hw H.
  - reflexivity.
  - destruct item as [ p | p | p1 p2 p3 | ]; simpl in *.
    + eapply IH; eauto.
    + destruct old as [ o | ]; [ | discriminate ].
      destruct (Rlt_dec (total + distance (fst o) (snd o) (fst p) (snd p)) w)
        as [ L | N ]; [ | discriminate ].
      destruct (Rlt_dec (total + distance (fst o) (snd o) (fst p) (snd p)) w')
        as [ L' | N' ]; [ | lra ].
      eapply IH; eauto.
    + eapply IH; eauto.
    + eapply IH; eauto.
Qed.

Lemma point_following_path_none (p : path) (w w' : R) :
  w <= w' ->
  point_following_path p w = Ok None ->
  point_following_path p w' = Ok None.
Proof. apply point_following_path_from_none. Qed.

(** A path whose length can be taken can be queried at every distance. *)
Lemma point_following_path_from_ok (items : path) :
  forall (total total' : R) (old : option point) (len w : R),
    path_length_from total old items = Ok len ->
    exists found, point_following_path_from total' old items w = Ok found.
Proof.
  induction items as [ | item rest IH ]; intros total total' old len w H.
  - eexists; reflexivity.
  - destruct item as [ p | p | p1 p2 p3 | ]; simpl in *.
    + eapply IH; eauto.
    + destruct old as [ o | ]; [ | discriminate ].
      destruct (Rlt_dec (total' + distance (fst o) (snd o) (fst p) (snd p)) w).
      * eapply IH; eauto.
      * eexists; reflexivity.
    + eapply IH; eauto.
    + eapply IH; eauto.
Qed.

Lemma point_following_path_ok (p : path) (len w : R) :
  path_length p = Ok len ->
  exists found, point_following_path p w = Ok found.
Proof. apply point_following_path_from_ok. Qed.

(** The two sample paths, measured. *)
Lemma segment_path_point (w : R) :
  point_following_path segment_path w =
    Ok (if Rlt_dec 10 w then None else Some (w, 0)).
Proof.
  unfold point_following_path, segment_path. simpl.
  rewrite distance_horizontal by lra.
  rewrite point_angle_rightwards by lra.
  rewrite cos_0, sin_0.
  replace (0 + (10 - 0)) with 10 by ring.
  destruct (Rlt_dec 10 w); [ reflexivity | ].
  do 3 f_equal; ring.
Qed.

Lemma corner_path_length : path_length corner_path = Ok 20.
Proof.
  unfold path_length, corner_path. simpl.
  rewrite distance_horizontal, distance_vertical by lra.
  f_equal. ring.
Qed.

Lemma corner_path_point (w : R) :
  point_following_path corner_path w =
    Ok (if Rlt_dec 10 w
        then if Rlt_dec 20 w then None else Some (10, w - 10)
        else Some (w, 0)).
Proof.
  unfold point_following_path, corner_path. simpl.
  rewrite distance_horizontal, distance_vertical by lra.
  rewrite point_angle_rightwards, point_angle_upwards by lra.
  rewrite cos_0, sin_0, cos_PI2, sin_PI2.
  replace (0 + (10 - 0)) with 10 by ring.
  replace (10 + (10 - 0)) with 20 by ring.
  destruct (Rlt_dec 10 w); [ destruct (Rlt_dec 20 w) | ];
    try reflexivity; do 3 f_equal; ring.
Qed.

(** C4: on the path MoveTo(0,0), LineTo(10,0), LineTo(10,10) the length is
    20, the point at distance 5 is (5,0), the point at distance 15 is
    (10,5), and there is no point at distance 25: lengths of the segments
    add up, and the point is the segment's start moved along the segment
    by what is left of the distance. *)
Theorem corner_path_measured :
  path_length
    [PATH_MOVE_TO (0, 0); PATH_LINE_TO (10, 0); PATH_LINE_TO (10, 10)]
    = Ok 20 /\
  point_following_path
    [PATH_MOVE_TO (0, 0); PATH_LINE_TO (10, 0); PATH_LINE_TO (10, 10)] 5
    = Ok (Some (5, 0)) /\
  point_following_path
    [PATH_MOVE_TO (0, 0); PATH_LINE_TO (10, 0); PATH_LINE_TO (10, 10)] 15
    = Ok (Some (10, 5)) /\
  point_following_path
    [PATH_MOVE_TO (0, 0); PATH_LINE_TO (10, 0); PATH_LINE_TO (10, 10)] 25
    = Ok None.
Proof.
  fold corner_path. rewrite corner_path_length, !corner_path_point.
  repeat split.
  - destruct (Rlt_dec 10 5); [ lra | reflexivity ].
  - destruct (Rlt_dec 10 15); [ | lra ].
    destruct (Rlt_dec 20 15); [ lra | ].
    do 3 f_equal; ring.
  - destruct (Rlt_dec 10 25); [ | lra ].
    destruct (Rlt_dec 20 25); [ reflexivity | lra ].
Qed.

(** C5: a path made of a single MoveTo has length 0, and no point is found
    on it at any positive distance. *)
Theorem single_move_to_path (p : point) (d : R) :
  0 < d ->
  path_length [PATH_MOVE_TO p] = Ok 0 /\
  point_following_path [PATH_MOVE_TO p] d = Ok None.
Proof. intros _. apply move_to_only. Qed.

(** *** The explicit-array layout *)

Lemma inverse_transform_point_spec (m : matrix) (p : point) :
  det m <> 0 -> inverse_transform_point m (transform_point m p) = p.
Proof.
  intros H. destruct m, p. unfold det in H. simpl in H.
  unfold inverse_transform_point, transform_point, det. simpl.
  f_equal; field; exact H.
Qed.

(** Unfolds the statements of a drawer down to the records they build,
    leaving the arithmetic untouched. *)
Ltac run_statements :=
  cbv [mbind M_bind mret M_ret raise lift
       ctx_save ctx_restore ctx_move_to ctx_rel_move_to
       ctx_get_current_point ctx_rotate ctx_translate ctx_new_path
       ctx_text_path ctx_show_text ctx_text_extents
       ctx_select_font_face ctx_set_font_size ctx_set_source_rgba
       get_surface set_context set_cursor_position set_total_width
       set_stroke_and_fill with_current_point with_matrix with_state
       ctx_matrix glyph_at surface_font
       context ctx_state ctx_saved ctx_current_point ctx_outlines ctx_shown
       cursor_position total_width paths stroke_and_fill
       gs_matrix gs_font gs_source font_family font_slant font_weight
       font_size fst snd].

(** What one turn of the loop of [text] leaves: the glyph, rotated about
    the anchor, joins the outlines, and the cursor and the current point
    are at the anchor moved by the advance and by the alignment offset. *)
Lemma text_letter_run (x_al last_r : R) (pos : position) (letter : string)
    (s : surface) :
  det (ctx_matrix (context s)) <> 0 ->
  let c := context s in
  let m := ctx_matrix c in
  let p := resolve (cursor_position s) last_r pos in
  let anchor := (p.1.1.1.1 + p.1.1.2 - x_al, p.1.1.1.2 + p.1.2) in
  let te := text_extents (surface_font s) letter in
  let next := (fst anchor + x_advance te + x_al, snd anchor + y_advance te) in
  text_letter x_al last_r pos letter s =
    (Ok tt,
     mkSurface
       (mkContext (ctx_state c) (ctx_saved c)
                  (Some (transform_point m next))
                  (ctx_outlines c ++
                     [mkGlyph letter (matrix_rotate m p.2)
                              (transform_point m anchor)])
                  (ctx_shown c))
       next (total_width s) (paths s) (stroke_and_fill s)).
Proof.
  intros Hdet.
  destruct pos as [[[[px py] pdx] pdy] pr].
  destruct s as [[[m f src] saved cp outl shown] [cx cy] tw ps sf].
  destruct m as [mxx myx mxy myy mx0 my0].
  unfold det, ctx_matrix in Hdet. simpl in Hdet.
  cbv [text_letter resolve]. run_statements.
  cbv [transform_point transform_distance inverse_transform_point det
       matrix_rotate xx yx xy yy x0 y0 fst snd].
  f_equal. f_equal.
  - f_equal.
    + f_equal. f_equal; field; exact Hdet.
    + f_equal. f_equal. f_equal. f_equal; field; exact Hdet.
  - f_equal; field; exact Hdet.
Qed.

(** C8: after a letter of the explicit-array layout is placed, the cursor
    is the glyph's anchor (origin [(x + dx, y + dy)] shifted back by the
    alignment offset, before any rotation) plus the glyph's advance plus
    the alignment offset along the horizontal axis; [x] and [y] are the
    array's values or, past the arrays' ends, the running cursor's
    coordinates. *)
Theorem cursor_after_letter (x_al last_r : R) (px py pdx pdy pr : option R)
    (letter : string) (s : surface) :
  det (ctx_matrix (context s)) <> 0 ->
  let m := ctx_matrix (context s) in
  let x := default (fst (cursor_position s)) px in
  let y := default (snd (cursor_position s)) py in
  let dx := default 0 pdx in
  let dy := default 0 pdy in
  let r := default last_r pr in
  let anchor := (x + dx - x_al, y + dy) in
  let te := text_extents (surface_font s) letter in
  exists s',
    text_letter x_al last_r (px, py, pdx, pdy, pr) letter s = (Ok tt, s') /\
    cursor_position s' =
      (fst anchor + x_advance te + x_al, snd anchor + y_advance te) /\
    ctx_outlines (context s') =
      (ctx_outlines (context s) ++
         [mkGlyph letter (matrix_rotate m r) (transform_point m anchor)])%list /\
    ctx_matrix (context s') = m.
Proof.
  intros Hdet. cbv zeta.
  eexists. split.
  - apply (text_letter_run x_al last_r (px, py, pdx, pdy, pr) letter s Hdet).
  - repeat split.
Qed.
Lemma set_default_fill_text (node : Node) :
  node_text (set_default_fill node) = node_text node.
Proof.
  unfold set_default_fill.
  destruct (node_get node "fill") as [ [ | c rest ] | ]; reflexivity.
Qed.

Lemma set_default_fill_get (node : Node) (key : string) :
  key <> "fill" ->
  node_get (set_default_fill node) key = node_get node key.
Proof.
  intros Hk. unfold set_default_fill.
  destruct (node_get node "fill") as [ [ | c rest ] | ]; try reflexivity;
    unfold node_get; simpl; apply lookup_insert_ne; congruence.
Qed.

(** C9: a text element with empty content goes through no per-character
    layout: nothing joins the outlines, nothing is painted, and the cursor
    stays where it was. *)
Theorem empty_text_no_layout (node : Node) (s : surface) :
  node_text node = "" ->
  cursor_position (snd (text node s)) = cursor_position s /\
  ctx_outlines (context (snd (text node s))) = ctx_outlines (context s) /\
  ctx_shown (context (snd (text node s))) = ctx_shown (context s) /\
  ctx_current_point (context (snd (text node s)))
    = ctx_current_point (context s) /\
  total_width (snd (text node s)) = total_width s /\
  (forall rotate, rotations_of node = Ok rotate ->
                  fst (text node s) = Ok tt).
Proof.
  intros Hempty.
  assert (Hrot : rotations_of (set_default_fill node) = rotations_of node).
  { unfold rotations_of. rewrite set_default_fill_get by discriminate.
    reflexivity. }
  unfold text. rewrite set_default_fill_text, Hempty, Hrot.
  run_statements.
  destruct (rotations_of node) as [ rotate | e ];
    repeat split; intros; (reflexivity || discriminate).
Qed.
Lemma text_letters_cons (x_al last_r : R) (pos : position) (letter : string)
    (rest : list (position * string)) (s : surface) :
  text_letters x_al last_r ((pos, letter) :: rest) s =
    match text_letter x_al last_r pos letter s with
    | (Ok _, s') => text_letters x_al last_r rest s'
    | (Raise e, s') => (Raise e, s')
    end.
Proof. reflexivity. Qed.

(** The whole loop of [text]: it never raises, every letter joins the
    outlines in order, rotated by its own angle or by [last_r], and the
    graphics state is the one the loop was entered with. *)
Lemma text_letters_run (x_al last_r : R) (lp : list (position * string)) :
  forall s : surface,
    det (ctx_matrix (context s)) <> 0 ->
    exists s',
      text_letters x_al last_r lp s = (Ok tt, s') /\
      ctx_state (context s') = ctx_state (context s) /\
      ctx_saved (context s') = ctx_saved (context s) /\
      ctx_shown (context s') = ctx_shown (context s) /\
      total_width s' = total_width s /\
      glyph_letter <$> ctx_outlines (context s') =
        ((glyph_letter <$> ctx_outlines (context s)) ++ (snd <$> lp))%list /\
      glyph_matrix <$> ctx_outlines (context s') =
        ((glyph_matrix <$> ctx_outlines (context s)) ++
         ((fun pl => matrix_rotate (ctx_matrix (context s))
                       (default last_r (snd (fst pl)))) <$> lp))%list.
Proof.
  induction lp as [ | [pos letter] rest IH ]; intros s Hdet.
  - exists s. simpl. rewrite !app_nil_r. repeat split.
  - rewrite text_letters_cons, (text_letter_run _ _ _ _ _ Hdet).
    match goal with
    | |- context [ text_letters _ _ _ ?s1 ] =>
        destruct (IH s1 Hdet) as (s' & Hrun & Hst & Hsv & Hsh & Htw & Hl & Hm)
    end.
    exists s'. split; [ exact Hrun | ].
    cbn [context ctx_state ctx_saved ctx_shown total_width ctx_outlines
         ctx_matrix] in Hst, Hsv, Hsh, Htw, Hl, Hm.
    rewrite fmap_app in Hl. rewrite fmap_app in Hm.
    rewrite <- app_assoc in Hl. rewrite <- app_assoc in Hm.
    repeat split; try assumption.
    rewrite Hm. destruct pos as [[[[px py] pdx] pdy] pr]. reflexivity.
Qed.

(** *** Attribute arrays *)

Lemma split_space_nonempty (s : string) : split_space s <> [].
Proof.
  induction s as [ | c rest IH ]; simpl; [ discriminate | ].
  destruct (Ascii.eqb c " "); [ discriminate | ].
  destruct (split_space rest); discriminate.
Qed.

Lemma rotations_length (pieces : list string) :
  forall rl, rotations pieces = Ok rl -> length rl = length pieces.
Proof.
  induction pieces as [ | i rest IH ]; simpl; intros rl H.
  - injection H as <-. reflexivity.
  - unfold float in H.
    destruct (float_of_string i) as [ deg | ]; [ | discriminate ].
    destruct (rotations rest) as [ rs | e ]; [ | discriminate ].
    injection H as <-. simpl. f_equal. apply IH. reflexivity.
Qed.

(** Every angle of the array is a piece of the attribute, read as a number
    of degrees and turned into radians. *)
Lemma rotations_radians (pieces : list string) :
  forall rl, rotations pieces = Ok rl ->
    Forall2 (fun piece r => exists deg,
               float_of_string piece = Some deg /\ r = radians deg)
            pieces rl.
Proof.
  induction pieces as [ | i rest IH ]; simpl; intros rl H.
  - injection H as <-. constructor.
  - unfold float in H.
    destruct (float_of_string i) as [ deg | ] eqn:Hf; [ | discriminate ].
    destruct (rotations rest) as [ rs | e ]; [ | discriminate ].
    injection H as <-. constructor; [ eauto | apply IH; reflexivity ].
Qed.

Lemma rotations_of_nonempty (node : Node) (rl : list R) :
  rotations_of node = Ok rl -> rl <> [].
Proof.
  unfold rotations_of, split_attr.
  destruct (node_get node "rotate") as [ v | ]; intros H.
  - apply rotations_length in H.
    pose proof (split_space_nonempty (strip (normalize v))) as Hne.
    destruct rl; [ | discriminate ].
    destruct (split_space (strip (normalize v))); [ congruence | discriminate ].
  - injection H as <-. discriminate.
Qed.

Lemma lengths_of_nonempty (node : Node) (key : string) (ref : reference)
    (missing : list R) :
  missing <> [] -> lengths_of node key ref missing <> [].
Proof.
  intros Hm. unfold lengths_of, lengths, split_attr.
  destruct (node_get node key) as [ v | ]; [ | exact Hm ].
  pose proof (split_space_nonempty (strip (normalize v))) as Hne.
  destruct (split_space (strip (normalize v))); [ congruence | discriminate ].
Qed.

Lemma last_item_nonempty (l : list R) :
  l <> [] -> exists v, last l = Some v /\ last_item l = Ok v.
Proof.
  intros Hne. unfold last_item.
  destruct (last l) as [ v | ] eqn:Hl; [ eauto | ].
  apply last_None in Hl. contradiction.
Qed.

Lemma zip_letters_lookup (word : list string) :
  forall (xl yl dxl dyl rl : list R) (i : nat),
    zip_letters xl yl dxl dyl rl word !! i =
      (fun letter =>
         ((xl !! i, yl !! i, dxl !! i, dyl !! i, rl !! i), letter))
        <$> (word !! i).
Proof.
  induction word as [ | char word' IH ]; intros xl yl dxl dyl rl i.
  - reflexivity.
  - destruct i as [ | i ]; simpl.
    + rewrite !head_lookup. reflexivity.
    + rewrite IH, !lookup_tail. reflexivity.
Qed.

Lemma zip_letters_length (word : list string) :
  forall xl yl dxl dyl rl : list R,
    length (zip_letters xl yl dxl dyl rl word) = length word.
Proof.
  induction word as [ | char word' IH ]; intros; simpl; [ | rewrite IH ];
    reflexivity.
Qed.

(** The font selection touches nothing but the font. *)
Lemma select_font_run (node : Node) (s : surface) :
  exists f,
    select_font node s =
      (Ok tt,
       mkSurface
         (mkContext (mkGstate (ctx_matrix (context s)) f
                              (gs_source (ctx_state (context s))))
                    (ctx_saved (context s))
                    (ctx_current_point (context s))
                    (ctx_outlines (context s)) (ctx_shown (context s)))
         (cursor_position s) (total_width s) (paths s)
         (stroke_and_fill s)).
Proof. eexists. unfold select_font. run_statements. reflexivity. Qed.

(** [text] on a node with content: the attributes are read, and the loop
    runs over the letters with [last_r] the last angle of the array. *)
Lemma text_run (node : Node) (s : surface) (rl : list R) :
  node_text node <> "" ->
  rotations_of node = Ok rl ->
  let node' := set_default_fill node in
  exists last_r s1,
    last rl = Some last_r /\
    select_font node' s = (Ok tt, s1) /\
    text node s =
      text_letters
        (text_x_align node' (text_extents (surface_font s1) (node_text node)))
        last_r
        (zip_letters (lengths_of node' "x" RefX [])
                     (lengths_of node' "y" RefY [])
                     (lengths_of node' "dx" RefX [0])
                     (lengths_of node' "dy" RefY [0])
                     rl (letters_of (node_text node)))
        s1.
Proof.
  intros Htext Hrot node'.
  assert (Hrot' : rotations_of node' = Ok rl).
  { unfold rotations_of, node'. rewrite set_default_fill_get by discriminate.
    exact Hrot. }
  destruct (last_item_nonempty rl (rotations_of_nonempty _ _ Hrot))
    as (last_r & Hlast & Hitem).
  destruct (last_item_nonempty (lengths_of node' "dx" RefX [0]))
    as (last_dx & _ & Hdx); [ apply lengths_of_nonempty; discriminate | ].
  destruct (last_item_nonempty (lengths_of node' "dy" RefY [0]))
    as (last_dy & _ & Hdy); [ apply lengths_of_nonempty; discriminate | ].
  destruct (select_font_run node' s) as (f & Hsel).
  eexists last_r, _. split; [ exact Hlast | ]. split; [ exact Hsel | ].
  unfold text. fold node'.
  cbv [mbind M_bind]. rewrite Hsel.
  cbv [ctx_text_extents mbind M_bind mret M_ret get_surface lift].
  rewrite Hrot'.
  replace (node_text node') with (node_text node)
    by (symmetry; apply set_default_fill_text).
  destruct (String.eqb (node_text node) "") eqn:He.
  { apply String.eqb_eq in He. contradiction. }
  rewrite Hdx, Hdy, Hitem. reflexivity.
Qed.
Lemma zip_letters_rotations (m : matrix) (last_r : R) (word : list string)
    (xl yl dxl dyl rl : list R) :
  (fun pl : position * string =>
     matrix_rotate m (default last_r (snd (fst pl))))
    <$> zip_letters xl yl dxl dyl rl word =
  (fun i : nat => matrix_rotate m (default last_r (rl !! i)))
    <$> seq 0 (length word).
Proof.
  apply list_eq. intros i.
  rewrite !list_lookup_fmap, zip_letters_lookup.
  destruct (word !! i) as [ letter | ] eqn:Hw; simpl.
  - apply lookup_lt_Some in Hw.
    rewrite lookup_seq_lt by exact Hw. reflexivity.
  - apply lookup_ge_None in Hw.
    rewrite lookup_seq_ge by exact Hw. reflexivity.
Qed.

(** C3: for a text of N characters, the character at index [i] is rotated
    by the rotation array's value at [i] or, past the array's end, by the
    last value of the original array (degrees turned into radians; the
    array is [[0]] when no rotation is given, so the fallback is 0); [x]
    and [y] past their arrays' ends are unspecified and the cursor's
    coordinates stand in; [dx] and [dy] past their arrays' ends are 0,
    never their last value. *)
Theorem attribute_broadcast (node : Node) (s : surface) (rl : list R) :
  node_text node <> "" ->
  rotations_of node = Ok rl ->
  det (ctx_matrix (context s)) <> 0 ->
  let node' := set_default_fill node in
  let xl := lengths_of node' "x" RefX [] in
  let yl := lengths_of node' "y" RefY [] in
  let dxl := lengths_of node' "dx" RefX [0] in
  let dyl := lengths_of node' "dy" RefY [0] in
  let word := letters_of (node_text node) in
  exists (last_r : R) (s1 s' : surface),
    last rl = Some last_r /\
    (node_get node "rotate" = None -> rl = [0] /\ last_r = 0) /\
    (forall v, node_get node "rotate" = Some v ->
       Forall2 (fun piece r => exists deg,
                  float_of_string piece = Some deg /\ r = radians deg)
               (split_attr v) rl) /\
    select_font node' s = (Ok tt, s1) /\
    text node s =
      text_letters
        (text_x_align node' (text_extents (surface_font s1) (node_text node)))
        last_r (zip_letters xl yl dxl dyl rl word) s1 /\
    text node s = (Ok tt, s') /\
    glyph_matrix <$> ctx_outlines (context s') =
      ((glyph_matrix <$> ctx_outlines (context s)) ++
       ((fun i : nat => matrix_rotate (ctx_matrix (context s))
                          (default last_r (rl !! i)))
          <$> seq 0 (length word)))%list /\
    forall (i : nat) (letter : string) (cursor : point),
      word !! i = Some letter ->
      exists pos,
        zip_letters xl yl dxl dyl rl word !! i = Some (pos, letter) /\
        resolve cursor last_r pos =
          (default (fst cursor) (xl !! i), default (snd cursor) (yl !! i),
           default 0 (dxl !! i), default 0 (dyl !! i),
           default last_r (rl !! i)).
Proof.
  intros Htext Hrot Hdet node' xl yl dxl dyl word.
  destruct (text_run node s rl Htext Hrot) as (last_r & s1 & Hlast & Hsel & Hrun).
  fold node' in Hsel, Hrun. fold xl yl dxl dyl word in Hrun.
  destruct (select_font_run node' s) as (f & Hsel').
  assert (Hs1 : context s1 =
                mkContext (mkGstate (ctx_matrix (context s)) f
                                    (gs_source (ctx_state (context s))))
                          (ctx_saved (context s))
                          (ctx_current_point (context s))
                          (ctx_outlines (context s)) (ctx_shown (context s))).
  { rewrite Hsel' in Hsel. injection Hsel as <-. reflexivity. }
  assert (Hdet1 : det (ctx_matrix (context s1)) <> 0)
    by (rewrite Hs1; exact Hdet).
  destruct (text_letters_run
              (text_x_align node' (text_extents (surface_font s1) (node_text node)))
              last_r (zip_letters xl yl dxl dyl rl word) s1 Hdet1)
    as (s' & Hletters & _ & _ & _ & _ & _ & Hm).
  exists last_r, s1, s'.
  split; [ exact Hlast | ].
  split; [ | split; [ | split; [ exact Hsel | split; [ exact Hrun | ] ] ] ].
  - intros Hnone. unfold rotations_of in Hrot. rewrite Hnone in Hrot.
    injection Hrot as <-. split; [ reflexivity | ].
    simpl in Hlast. congruence.
  - intros v Hv. unfold rotations_of in Hrot. rewrite Hv in Hrot.
    apply rotations_radians. exact Hrot.
  - split; [ rewrite Hrun; exact Hletters | ]. split.
    + rewrite Hm, zip_letters_rotations, Hs1. reflexivity.
    + intros i letter cursor Hi. eexists. split.
      * rewrite zip_letters_lookup, Hi. reflexivity.
      * reflexivity.
Qed.
(** *** The path-text layout *)

Lemma text_path_letters_cons (node : Node) (cairo_path : path)
    (letter_spacing : R) (xy : point) (letter : string)
    (rest : list string) (s : surface) :
  text_path_letters node cairo_path letter_spacing xy (letter :: rest) s =
    let s1 := widened s (increment (surface_font s) letter_spacing letter) in
    match point_following_path cairo_path (total_width s1) with
    | Raise e => (Raise e, s1)
    | Ok None =>
        text_path_letters node cairo_path letter_spacing xy rest s1
    | Ok (Some (x2, y2)) =>
        (ctx_save;;
         ctx_translate (fst xy) (snd xy);;
         rot ← lift (float (default (PyInt 0)
                                    (PyStr <$> node_get node "rotate")));
         ctx_rotate (point_angle (fst xy) (snd xy) x2 y2 + rot);;
         ctx_translate 0 (size (of_attr (node_get node "y")) RefY);;
         ctx_move_to 0 0;;
         ctx_show_text letter;;
         ctx_restore;;
         text_path_letters node cairo_path letter_spacing (x2, y2) rest) s1
    end.
Proof.
  cbn [text_path_letters].
  cbv [ctx_text_extents mbind M_bind mret M_ret get_surface set_total_width
       lift widened increment surface_font total_width].
  destruct (point_following_path cairo_path _) as [ [ [x2 y2] | ] | e ];
    reflexivity.
Qed.

(** A letter with no point on the path: [continue]. *)
Lemma text_path_letter_skipped (node : Node) (cairo_path : path)
    (letter_spacing : R) (xy : point) (letter : string)
    (rest : list string) (s : surface) :
  point_following_path cairo_path
    (total_width s + increment (surface_font s) letter_spacing letter)
    = Ok None ->
  text_path_letters node cairo_path letter_spacing xy (letter :: rest) s =
    text_path_letters node cairo_path letter_spacing xy rest
      (widened s (increment (surface_font s) letter_spacing letter)).
Proof.
  intros H. rewrite text_path_letters_cons. cbv zeta.
  cbn [widened total_width]. rewrite H. reflexivity.
Qed.

(** A letter with a point on the path: one glyph is painted at the
    previous point and the loop goes on from the point found. *)
Lemma text_path_letter_placed (node : Node) (cairo_path : path)
    (letter_spacing : R) (xy x2y2 : point) (letter : string)
    (rest : list string) (s : surface) (rot : R) :
  point_following_path cairo_path
    (total_width s + increment (surface_font s) letter_spacing letter)
    = Ok (Some x2y2) ->
  float (default (PyInt 0) (PyStr <$> node_get node "rotate")) = Ok rot ->
  let c := context s in
  let m :=
    path_glyph_matrix
      (ctx_matrix c) xy
      (point_angle (fst xy) (snd xy) (fst x2y2) (snd x2y2) + rot)
      (size (of_attr (node_get node "y")) RefY) in
  exists cp,
    text_path_letters node cairo_path letter_spacing xy (letter :: rest) s =
      text_path_letters node cairo_path letter_spacing x2y2 rest
        (mkSurface
           (mkContext (ctx_state c) (ctx_saved c) cp (ctx_outlines c)
                      (ctx_shown c ++
                         [mkGlyph letter m (transform_point m (0, 0))]))
           (cursor_position s)
           (total_width s + increment (surface_font s) letter_spacing letter)
           (paths s) (stroke_and_fill s)).
Proof.
  intros H Hrot c m. rewrite text_path_letters_cons. cbv zeta.
  cbn [widened total_width]. rewrite H. destruct x2y2 as [x2 y2].
  run_statements. rewrite Hrot.
  eexists. reflexivity.
Qed.
(** The increments of a run, under the font in force. *)
Lemma running_widths_none (cairo_path : path) (increments : list R) :
  forall w : R,
    point_following_path cairo_path w = Ok None ->
    Forall (fun d => 0 <= d) increments ->
    Forall (fun w' => point_following_path cairo_path w' = Ok None)
           (running_widths w increments).
Proof.
  induction increments as [ | d rest IH ]; intros w Hw Hpos; simpl.
  - constructor.
  - inversion Hpos as [ | d' rest' Hd Hrest ]; subst.
    assert (Hnext : point_following_path cairo_path (w + d) = Ok None).
    { apply (point_following_path_none cairo_path w); [ lra | exact Hw ]. }
    constructor; [ exact Hnext | apply IH; assumption ].
Qed.

(** The loop over letters none of which has a point on the path: nothing
    is painted and nothing raised; only [total_width] moves. *)
Lemma text_path_letters_exhausted (node : Node) (cairo_path : path)
    (letter_spacing : R) (letters : list string) :
  forall (xy : point) (s : surface),
    Forall (fun w => point_following_path cairo_path w = Ok None)
           (running_widths (total_width s)
              (increment (surface_font s) letter_spacing <$> letters)) ->
    exists s',
      text_path_letters node cairo_path letter_spacing xy letters s
        = (Ok tt, s') /\
      context s' = context s /\
      cursor_position s' = cursor_position s /\
      total_width s' =
        total_width s +
        sum_list (increment (surface_font s) letter_spacing <$> letters).
Proof.
  induction letters as [ | letter rest IH ]; intros xy s Hall.
  - exists s. simpl. repeat split. ring.
  - rewrite fmap_cons in Hall. simpl in Hall.
    inversion Hall as [ | w ws Hw Hrest ]; subst.
    rewrite (text_path_letter_skipped _ _ _ _ _ _ _ Hw).
    destruct (IH xy (widened s (increment (surface_font s) letter_spacing letter)))
      as (s' & Hrun & Hc & Hp & Htw); [ exact Hrest | ].
    exists s'. split; [ exact Hrun | ].
    split; [ exact Hc | ]. split; [ exact Hp | ].
    rewrite Htw, fmap_cons. cbn [widened total_width sum_list].
    change (surface_font (widened s (increment (surface_font s) letter_spacing letter)))
      with (surface_font s).
    ring.
Qed.

(** The loop in general: when the path can be measured and the [rotate]
    attribute is a number, the loop ends without raising; it leaves the
    graphics state, the outlines and the cursor as they were, paints at
    most one glyph per letter, and has added every letter's increment to
    [total_width]. *)
Lemma text_path_letters_run (node : Node) (cairo_path : path)
    (letter_spacing len rot : R) (letters : list string) :
  path_length cairo_path = Ok len ->
  float (default (PyInt 0) (PyStr <$> node_get node "rotate")) = Ok rot ->
  forall (xy : point) (s : surface),
    exists (s' : surface) (glyphs : list glyph),
      text_path_letters node cairo_path letter_spacing xy letters s
        = (Ok tt, s') /\
      ctx_state (context s') = ctx_state (context s) /\
      ctx_saved (context s') = ctx_saved (context s) /\
      ctx_outlines (context s') = ctx_outlines (context s) /\
      ctx_shown (context s') = (ctx_shown (context s) ++ glyphs)%list /\
      (length glyphs <= length letters)%nat /\
      cursor_position s' = cursor_position s /\
      total_width s' =
        total_width s +
        sum_list (increment (surface_font s) letter_spacing <$> letters).
Proof.
  intros Hlen Hrot.
  induction letters as [ | letter rest IH ]; intros xy s.
  - exists s, []. simpl. rewrite app_nil_r. repeat split; [ lia | ring ].
  - destruct (point_following_path_ok cairo_path len
                (total_width s + increment (surface_font s) letter_spacing letter)
                Hlen) as ([ x2y2 | ] & Hfound).
    + destruct (text_path_letter_placed node cairo_path letter_spacing xy
                  x2y2 letter rest s rot Hfound Hrot) as (cp & Hstep).
      rewrite Hstep.
      match goal with
      | |- context [ text_path_letters _ _ _ _ _ ?s1 ] =>
          destruct (IH x2y2 s1)
            as (s' & glyphs & Hrun & Hst & Hsv & Hol & Hsh & Hn & Hp & Htw)
      end.
      cbn [context ctx_state ctx_saved ctx_outlines ctx_shown
           cursor_position total_width surface_font gs_font]
        in Hst, Hsv, Hol, Hsh, Hp, Htw.
      eexists s', (_ :: glyphs).
      split; [ exact Hrun | ].
      rewrite <- app_assoc in Hsh.
      split; [ exact Hst | ]. split; [ exact Hsv | ]. split; [ exact Hol | ].
      split; [ exact Hsh | ]. split; [ simpl; lia | ].
      split; [ exact Hp | ].
      rewrite Htw, fmap_cons. cbn [sum_list].
      match goal with
      | |- context [ surface_font (mkSurface ?a ?b ?c ?d ?e) ] =>
          change (surface_font (mkSurface a b c d e)) with (surface_font s)
      end.
      ring.
    + rewrite (text_path_letter_skipped _ _ _ _ _ _ _ Hfound).
      destruct (IH xy (widened s (increment (surface_font s) letter_spacing letter)))
        as (s' & glyphs & Hrun & Hst & Hsv & Hol & Hsh & Hn & Hp & Htw).
      exists s', glyphs. split; [ exact Hrun | ].
      cbn [widened context total_width cursor_position]
        in Hst, Hsv, Hol, Hsh, Hp, Htw.
      split; [ exact Hst | ]. split; [ exact Hsv | ]. split; [ exact Hol | ].
      split; [ exact Hsh | ]. split; [ simpl; lia | ].
      split; [ exact Hp | ].
      rewrite Htw, fmap_cons. cbn [sum_list].
      change (surface_font (widened s (increment (surface_font s) letter_spacing letter)))
        with (surface_font s).
      ring.
Qed.
(** C10: the loop of [text_path] adds the advance of every letter plus
    the letter spacing to [total_width], for the letters that get no point
    on the path and paint no glyph as for the others; after the loop
    [total_width] is its former value plus the sum over all the letters,
    however many glyphs were painted. *)
Theorem total_width_advances (node : Node) (cairo_path : path)
    (letter_spacing len rot : R) (letters : list string) (xy : point)
    (s : surface) :
  path_length cairo_path = Ok len ->
  float (default (PyInt 0) (PyStr <$> node_get node "rotate")) = Ok rot ->
  exists (s' : surface) (glyphs : list glyph),
    text_path_letters node cairo_path letter_spacing xy letters s
      = (Ok tt, s') /\
    ctx_shown (context s') = (ctx_shown (context s) ++ glyphs)%list /\
    (length glyphs <= length letters)%nat /\
    total_width s' =
      total_width s +
      sum_list
        ((fun letter =>
            x_advance (text_extents (surface_font s) letter) + letter_spacing)
           <$> letters).
Proof.
  intros Hlen Hrot.
  destruct (text_path_letters_run node cairo_path letter_spacing len rot
              letters Hlen Hrot xy s)
    as (s' & glyphs & Hrun & _ & _ & _ & Hsh & Hn & _ & Htw).
  exists s', glyphs. repeat split; assumption.
Qed.

(** C2, as the code has it: a letter whose query at the updated
    [total_width] finds no point paints no glyph and raises nothing, and
    the loop goes on with the next letter from the same previous point;
    when no later letter's advance plus letter spacing is negative, no
    later letter paints a glyph either; and a run whose queries find a
    point for the first two letters and none from the third letter on
    paints exactly two glyphs and ends without raising. *)
Theorem exhausted_letters_skipped :
  (forall (node : Node) (cairo_path : path) (letter_spacing : R)
          (xy : point) (letter : string) (rest : list string)
          (s : surface),
      point_following_path cairo_path
        (total_width s + increment (surface_font s) letter_spacing letter)
        = Ok None ->
      text_path_letters node cairo_path letter_spacing xy (letter :: rest) s
        = text_path_letters node cairo_path letter_spacing xy rest
            (widened s (increment (surface_font s) letter_spacing letter))) /\
  (forall (node : Node) (cairo_path : path) (letter_spacing : R)
          (xy : point) (letter : string) (rest : list string)
          (s : surface),
      point_following_path cairo_path
        (total_width s + increment (surface_font s) letter_spacing letter)
        = Ok None ->
      Forall (fun l => 0 <= increment (surface_font s) letter_spacing l)
             rest ->
      exists s',
        text_path_letters node cairo_path letter_spacing xy
                          (letter :: rest) s = (Ok tt, s') /\
        context s' = context s) /\
  (forall (node : Node) (cairo_path : path) (letter_spacing rot : R)
          (xy p1 p2 : point) (l1 l2 : string) (rest : list string)
          (s : surface),
      let d1 := increment (surface_font s) letter_spacing l1 in
      let d2 := increment (surface_font s) letter_spacing l2 in
      point_following_path cairo_path (total_width s + d1) = Ok (Some p1) ->
      point_following_path cairo_path (total_width s + d1 + d2)
        = Ok (Some p2) ->
      Forall (fun w => point_following_path cairo_path w = Ok None)
             (running_widths (total_width s + d1 + d2)
                (increment (surface_font s) letter_spacing <$> rest)) ->
      float (default (PyInt 0) (PyStr <$> node_get node "rotate")) = Ok rot ->
      exists (s' : surface) (g1 g2 : glyph),
        text_path_letters node cairo_path letter_spacing xy
                          (l1 :: l2 :: rest) s = (Ok tt, s') /\
        ctx_shown (context s') = (ctx_shown (context s) ++ [g1; g2])%list /\
        glyph_letter g1 = l1 /\ glyph_letter g2 = l2).
Proof.
  split; [ | split ].
  - intros. apply text_path_letter_skipped. assumption.
  - intros node cairo_path ls xy letter rest s Hnone Hpos.
    rewrite (text_path_letter_skipped _ _ _ _ _ _ _ Hnone).
    destruct (text_path_letters_exhausted node cairo_path ls rest xy
                (widened s (increment (surface_font s) ls letter)))
      as (s' & Hrun & Hc & _).
    + apply running_widths_none; [ exact Hnone | ].
      apply Forall_fmap. exact Hpos.
    + exists s'. split; [ exact Hrun | exact Hc ].
  - intros node cairo_path ls rot xy p1 p2 l1 l2 rest s d1 d2 H1 H2 Hall Hrot.
    destruct (text_path_letter_placed node cairo_path ls xy p1 l1
                (l2 :: rest) s rot H1 Hrot) as (cp1 & Hstep1).
    rewrite Hstep1.
    match goal with
    | |- context [ text_path_letters _ _ _ _ _ ?s1 ] => set (s1' := s1)
    end.
    destruct (text_path_letter_placed node cairo_path ls p1 p2 l2
                rest s1' rot H2 Hrot) as (cp2 & Hstep2).
    rewrite Hstep2.
    match goal with
    | |- context [ text_path_letters _ _ _ _ _ ?s2 ] => set (s2' := s2)
    end.
    destruct (text_path_letters_exhausted node cairo_path ls rest p2 s2')
      as (s' & Hrun & Hc & _); [ exact Hall | ].
    eexists s', _, _. split; [ exact Hrun | ].
    rewrite Hc. subst s2' s1'. cbn [context ctx_shown].
    rewrite <- app_assoc. split; [ reflexivity | split; reflexivity ].
Qed.
(** What lines 150-151 leave: the surface as it was, but for the source
    colour. *)
Lemma set_fill_source_run (node : Node) (s : surface) :
  exists src,
    set_fill_source node s =
      (Ok tt,
       mkSurface
         (mkContext (mkGstate (ctx_matrix (context s))
                              (gs_font (ctx_state (context s))) src)
                    (ctx_saved (context s))
                    (ctx_current_point (context s))
                    (ctx_outlines (context s)) (ctx_shown (context s)))
         (cursor_position s) (total_width s) (paths s)
         (stroke_and_fill s)).
Proof.
  unfold set_fill_source.
  destruct (contains "url(#" (or_else (node_get node "fill") "")).
  - exists (gs_source (ctx_state (context s))).
    destruct s as [[[m f src] saved cp outl shown] cur tw ps sf].
    reflexivity.
  - eexists. run_statements. reflexivity.
Qed.

(** With the path found but no point on it at the start of the run, the
    unpacking of line 174 raises; nothing was painted before. *)
Lemma text_on_initial_point_missing (node path_node : Node) (s : surface)
    (len : R) :
  path_length (copy_path_flat path_node) = Ok len ->
  point_following_path (copy_path_flat path_node)
    (total_width s +
     size (default (PyInt 0) (PyStr <$> node_get node "startOffset"))
          (RefLength len)) = Ok None ->
  exists s',
    text_on node path_node s = (Raise TypeError, s') /\
    ctx_shown (context s') = ctx_shown (context s) /\
    cursor_position s' = cursor_position s.
Proof.
  intros Hlen Hnone.
  destruct s as [[g saved cp outl shown] cur tw ps sf].
  cbn [total_width] in Hnone.
  unfold text_on. run_statements.
  rewrite Hlen, Hnone. eexists. split; [ reflexivity | ].
  split; reflexivity.
Qed.

Lemma text_path_resolved (node path_node : Node) (s : surface) (h : string) :
  node_get node xlink_href = Some h ->
  startswith "#" h = true ->
  paths s !! drop_first h = Some path_node ->
  text_path node s =
    (set_fill_source node;;
     text_on node path_node;;
     set_cursor_position (size (of_attr (node_get node "x")) RefX,
                          size (of_attr (node_get node "y")) RefY)) s.
Proof.
  intros Hh Hs Hp. unfold text_path. rewrite Hh. cbv [default from_option Datatypes.id].
  rewrite Hs. cbn [negb].
  destruct (set_fill_source_run node s) as (src & Hsrc).
  cbv [mbind M_bind get_surface]. rewrite Hsrc.
  cbn [paths]. rewrite Hp. reflexivity.
Qed.

(** C6: when the cross-reference attribute is missing, does not start
    with [#], or names no known path, [text_path] does nothing after the
    source colour was set: no glyph, and the cursor, [total_width], the
    current point and the graphics stack are as they were. *)
Theorem unresolved_reference_no_op (node : Node) (s : surface) :
  node_get node xlink_href = None \/
  (exists h, node_get node xlink_href = Some h /\ startswith "#" h = false) \/
  (exists h, node_get node xlink_href = Some h /\
             paths s !! drop_first h = None) ->
  text_path node s = set_fill_source node s /\
  fst (text_path node s) = Ok tt /\
  ctx_shown (context (snd (text_path node s))) = ctx_shown (context s) /\
  ctx_outlines (context (snd (text_path node s)))
    = ctx_outlines (context s) /\
  cursor_position (snd (text_path node s)) = cursor_position s /\
  total_width (snd (text_path node s)) = total_width s /\
  ctx_current_point (context (snd (text_path node s)))
    = ctx_current_point (context s) /\
  ctx_saved (context (snd (text_path node s))) = ctx_saved (context s) /\
  ctx_matrix (context (snd (text_path node s))) = ctx_matrix (context s).
Proof.
  intros Href.
  destruct (set_fill_source_run node s) as (src & Hsrc).
  assert (Hrun : text_path node s = set_fill_source node s).
  { unfold text_path. cbv [mbind M_bind get_surface]. rewrite Hsrc.
    destruct Href as [ Hnone | [ (h & Hh & Hs) | (h & Hh & Hp) ] ].
    - rewrite Hnone. reflexivity.
    - rewrite Hh. cbv [default from_option Datatypes.id]. rewrite Hs. reflexivity.
    - rewrite Hh. cbv [default from_option Datatypes.id].
      destruct (startswith "#" h); [ | reflexivity ].
      cbn [negb paths]. rewrite Hp. reflexivity. }
  rewrite Hrun, Hsrc. repeat split.
Qed.
(** ** Further properties of the path measurer *)

Lemma path_length_from_shift (items : path) :
  forall (t d len : R) (o : option point),
    path_length_from t o items = Ok len ->
    path_length_from (t + d) o items = Ok (len + d).
Proof.
  induction items as [ | item rest IH ]; intros t d len o H.
  - simpl in *. injection H as <-. reflexivity.
  - destruct item as [ p | p | p1 p2 p3 | ]; simpl in *.
    + apply IH. exact H.
    + destruct o as [ o | ]; [ | discriminate ].
      replace (t + d + distance (fst o) (snd o) (fst p) (snd p))
        with (t + distance (fst o) (snd o) (fst p) (snd p) + d) by ring.
      apply IH. exact H.
    + apply IH. exact H.
    + apply IH. exact H.
Qed.

Lemma path_length_from_le (items : path) :
  forall (t len : R) (o : option point),
    path_length_from t o items = Ok len -> t <= len.
Proof.
  induction items as [ | item rest IH ]; intros t len o H.
  - simpl in H. injection H as <-. lra.
  - destruct item as [ p | p | p1 p2 p3 | ]; simpl in H.
    + eapply IH; eauto.
    + destruct o as [ o | ]; [ | discriminate ].
      apply IH in H.
      pose proof (distance_nonneg (fst o) (snd o) (fst p) (snd p)). lra.
    + eapply IH; eauto.
    + eapply IH; eauto.
Qed.

Lemma path_length_from_app (pre : path) :
  forall (t t' : R) (o : option point) (post : path),
    path_length_from t o pre = Ok t' ->
    path_length_from t o (pre ++ post)%list
      = path_length_from t' (last_point o pre) post.
Proof.
  induction pre as [ | item rest IH ]; intros t t' o post H.
  - simpl in *. injection H as <-. reflexivity.
  - destruct item as [ p | p | p1 p2 p3 | ]; simpl in *.
    + apply IH. exact H.
    + destruct o as [ o | ]; [ | discriminate ].
      apply IH. exact H.
    + apply IH. exact H.
    + apply IH. exact H.
Qed.

(** X1: the length of a path is never negative. *)
Theorem path_length_nonneg (p : path) (len : R) :
  path_length p = Ok len -> 0 <= len.
Proof. apply path_length_from_le. Qed.

(** X2: a [PATH_MOVE_TO] starts a subpath without adding a length: the
    length of a path followed by a second subpath is the sum of the two
    lengths, whatever the gap between them. *)
Theorem path_length_subpaths (p1 p2 : path) (q : point) (l1 l2 : R) :
  path_length p1 = Ok l1 ->
  path_length (PATH_MOVE_TO q :: p2) = Ok l2 ->
  path_length (p1 ++ PATH_MOVE_TO q :: p2)%list = Ok (l1 + l2).
Proof.
  unfold path_length. intros H1 H2.
  rewrite (path_length_from_app p1 0 l1 None _ H1). simpl in *.
  pose proof (path_length_from_shift _ _ l1 _ _ H2) as H.
  replace (0 + l1) with l1 in H by ring.
  rewrite H. f_equal. ring.
Qed.

Lemma path_length_from_skip (pre : path) (item : path_item) :
  (forall p, item <> PATH_MOVE_TO p) ->
  (forall p, item <> PATH_LINE_TO p) ->
  forall (t : R) (o : option point) (post : path),
    path_length_from t o (pre ++ item :: post)%list
      = path_length_from t o (pre ++ post)%list.
Proof.
  intros Hm Hl.
  induction pre as [ | i rest IH ]; intros t o post.
  - destruct item as [ p | p | p1 p2 p3 | ]; try reflexivity.
    + destruct (Hm p). reflexivity.
    + destruct (Hl p). reflexivity.
  - destruct i as [ p | p | p1 p2 p3 | ]; simpl.
    + apply IH.
    + destruct o as [ o | ]; [ apply IH | reflexivity ].
    + apply IH.
    + apply IH.
Qed.

Lemma point_following_path_from_skip (pre : path) (item : path_item) :
  (forall p, item <> PATH_MOVE_TO p) ->
  (forall p, item <> PATH_LINE_TO p) ->
  forall (t : R) (o : option point) (post : path) (w : R),
    point_following_path_from t o (pre ++ item :: post)%list w
      = point_following_path_from t o (pre ++ post)%list w.
Proof.
  intros Hm Hl.
  induction pre as [ | i rest IH ]; intros t o post w.
  - destruct item as [ p | p | p1 p2 p3 | ]; try reflexivity.
    + destruct (Hm p). reflexivity.
    + destruct (Hl p). reflexivity.
  - destruct i as [ p | p | p1 p2 p3 | ]; simpl.
    + apply IH.
    + destruct o as [ o | ]; [ | reflexivity ].
      destruct (Rlt_dec _ w); [ apply IH | reflexivity ].
    + apply IH.
    + apply IH.
Qed.

(** X3: items other than [PATH_MOVE_TO] and [PATH_LINE_TO] are passed
    over: a [PATH_CLOSE_PATH] anywhere in a path changes neither its length
    nor the point found at any distance, so the segment that closes a
    subpath is not measured. *)
Theorem close_path_not_measured (pre post : path) (w : R) :
  path_length (pre ++ PATH_CLOSE_PATH :: post)%list
    = path_length (pre ++ post)%list /\
  point_following_path (pre ++ PATH_CLOSE_PATH :: post)%list w
    = point_following_path (pre ++ post)%list w.
Proof.
  split.
  - apply path_length_from_skip; discriminate.
  - apply point_following_path_from_skip; discriminate.
Qed.
Lemma path_length_from_some (items : path) :
  forall (t : R) (o : point),
    exists len, path_length_from t (Some o) items = Ok len.
Proof.
  induction items as [ | item rest IH ]; intros t o.
  - eexists. reflexivity.
  - destruct item as [ p | p | p1 p2 p3 | ]; simpl; apply IH.
Qed.

Lemma point_following_path_from_some (items : path) (w : R) :
  forall (t : R) (o : point),
    exists found, point_following_path_from t (Some o) items w = Ok found.
Proof.
  induction items as [ | item rest IH ]; intros t o.
  - eexists. reflexivity.
  - destruct item as [ p | p | p1 p2 p3 | ]; simpl; try apply IH.
    destruct (Rlt_dec _ w); [ apply IH | eexists; reflexivity ].
Qed.

Lemma last_point_none (items : path) :
  forall o : option point, last_point o items = None -> o = None.
Proof.
  induction items as [ | item rest IH ]; intros o H.
  - exact H.
  - destruct item as [ p | p | p1 p2 p3 | ]; simpl in H;
      try (apply IH in H; discriminate).
    + apply IH. exact H.
    + apply IH. exact H.
Qed.

(** X4: both functions raise on the same paths, at whatever distance the
    point is asked for, and only [UnboundLocalError]: a path whose first
    [PATH_LINE_TO] has no [PATH_MOVE_TO] before it raises it. *)
Theorem line_before_move_raises (p : path) (w : R) (e : exn) :
  (path_length p = Raise e <-> point_following_path p w = Raise e) /\
  (path_length p = Raise e -> e = UnboundLocalError) /\
  (forall pre q post,
     p = (pre ++ PATH_LINE_TO q :: post)%list ->
     last_point None pre = None ->
     path_length p = Raise UnboundLocalError).
Proof.
  unfold path_length, point_following_path.
  split; [ | split ].
  - induction p as [ | item rest IH ]; simpl.
    + split; discriminate.
    + destruct item as [ q | q | q1 q2 q3 | ]; try exact IH.
      * destruct (path_length_from_some rest 0 q) as (len & ->).
        destruct (point_following_path_from_some rest w 0 q) as (found & ->).
        split; discriminate.
      * split; intros H; injection H as <-; reflexivity.
  - induction p as [ | item rest IH ]; simpl.
    + discriminate.
    + destruct item as [ q | q | q1 q2 q3 | ]; try exact IH.
      * destruct (path_length_from_some rest 0 q) as (len & ->).
        discriminate.
      * intros H. injection H as <-. reflexivity.
  - intros pre q post -> Hpre.
    induction pre as [ | item rest IH ]; simpl in *.
    + reflexivity.
    + destruct item as [ r | r | r1 r2 r3 | ].
      * apply last_point_none in Hpre. discriminate.
      * reflexivity.
      * apply IH. exact Hpre.
      * apply IH. exact Hpre.
Qed.
Lemma path_length_from_no_line (items : path) :
  has_line items = false ->
  forall (t : R) (o : option point), path_length_from t o items = Ok t.
Proof.
  induction items as [ | item rest IH ]; intros H t o.
  - reflexivity.
  - destruct item as [ p | p | p1 p2 p3 | ]; simpl in *;
      try discriminate; apply IH; exact H.
Qed.

Lemma point_following_path_from_exhausted (items : path) (w : R) :
  forall (t len : R) (o : option point),
    path_length_from t o items = Ok len ->
    (point_following_path_from t o items w = Ok None <->
     has_line items = false \/ len < w).
Proof.
  induction items as [ | item rest IH ]; intros t len o H.
  - simpl. split; [ left | ]; reflexivity.
  - destruct item as [ p | p | p1 p2 p3 | ]; simpl in *;
      try (apply IH; exact H).
    destruct o as [ o | ]; [ | discriminate ].
    destruct (Rlt_dec (t + distance (fst o) (snd o) (fst p) (snd p)) w)
      as [ L | N ].
    + rewrite (IH _ _ _ H). split.
      * intros [ Hno | Hlt ]; [ | right; exact Hlt ].
        rewrite (path_length_from_no_line rest Hno) in H.
        injection H as <-. right. exact L.
      * intros [ Hno | Hlt ]; [ discriminate | right; exact Hlt ].
    + apply path_length_from_le in H. split.
      * discriminate.
      * intros [ Hno | Hlt ]; [ discriminate | lra ].
Qed.

(** X5: on a path with at least one segment, a point is found exactly at
    the distances that do not exceed the length of the path; distances of
    zero and below find a point too. *)
Theorem point_found_up_to_length (p : path) (len w : R) :
  path_length p = Ok len ->
  has_line p = true ->
  (point_following_path p w = Ok None <-> len < w) /\
  (w <= len -> exists xy, point_following_path p w = Ok (Some xy)).
Proof.
  intros Hlen Hline.
  pose proof (point_following_path_from_exhausted p w 0 len None Hlen) as H.
  fold (point_following_path p w) in H. rewrite Hline in H.
  assert (Hiff : point_following_path p w = Ok None <-> len < w).
  { rewrite H. split; [ intros [ Hf | Hlt ]; [ discriminate | exact Hlt ]
                      | intros Hlt; right; exact Hlt ]. }
  split; [ exact Hiff | ].
  intros Hw.
  destruct (point_following_path_ok p len w Hlen) as ([ xy | ] & Hfound).
  - exists xy. exact Hfound.
  - apply Hiff in Hfound. lra.
Qed.
Lemma norm_as_multiple (dx dy : R) :
  0 < dx ->
  sqrt (dx * dx + dy * dy) = sqrt (1 + (dy / dx)²) * dx.
Proof.
  intros Hdx.
  assert (Hpos : 0 <= 1 + (dy / dx)²) by (pose proof (Rle_0_sqr (dy / dx)); lra).
  apply sqrt_lem_1.
  - nra.
  - apply Rmult_le_pos; [ apply sqrt_pos | lra ].
  - replace (sqrt (1 + (dy / dx)²) * dx * (sqrt (1 + (dy / dx)²) * dx))
      with (sqrt (1 + (dy / dx)²) * sqrt (1 + (dy / dx)²) * (dx * dx)) by ring.
    rewrite sqrt_sqrt by exact Hpos. unfold Rsqr. field. lra.
Qed.

Lemma root_positive (t : R) : 0 < sqrt (1 + t²).
Proof. apply sqrt_lt_R0. pose proof (Rle_0_sqr t). lra. Qed.

(** The angle [atan2] gives is the direction of the vector: its cosine and
    sine, scaled by the norm, are the two coordinates. *)
Lemma atan2_direction (dx dy : R) :
  0 < sqrt (dx * dx + dy * dy) ->
  cos (atan2 dy dx) * sqrt (dx * dx + dy * dy) = dx /\
  sin (atan2 dy dx) * sqrt (dx * dx + dy * dy) = dy.
Proof.
  intros Hnorm. unfold atan2.
  destruct (Rlt_dec 0 dx) as [ Hpos | Hnpos ].
  - rewrite (norm_as_multiple dx dy Hpos), cos_atan, sin_atan.
    pose proof (root_positive (dy / dx)).
    split; field; lra.
  - destruct (Rlt_dec dx 0) as [ Hneg | Hnneg ].
    + assert (Hnorm' : sqrt (dx * dx + dy * dy)
                       = sqrt (1 + (dy / dx)²) * (- dx)).
      { replace (dx * dx) with (- dx * - dx) by ring.
        replace (dy / dx) with (- dy / - dx) by (field; lra).
        replace (dy * dy) with (- dy * - dy) by ring.
        apply norm_as_multiple. lra. }
      pose proof (root_positive (dy / dx)).
      destruct (Rle_dec 0 dy).
      * rewrite neg_cos, neg_sin, Hnorm', cos_atan, sin_atan.
        split; field; lra.
      * rewrite cos_minus, sin_minus, cos_PI, sin_PI, Hnorm', cos_atan,
                sin_atan.
        split; field; lra.
    + assert (dx = 0) by lra. subst dx.
      replace (0 * 0 + dy * dy) with (dy * dy) in * by ring.
      destruct (Rlt_dec 0 dy) as [ Hup | Hnup ].
      * rewrite cos_PI2, sin_PI2, sqrt_square by lra. split; ring.
      * destruct (Rlt_dec dy 0) as [ Hdown | Hndown ].
        -- rewrite cos_neg, sin_neg, cos_PI2, sin_PI2.
           replace (dy * dy) with (- dy * - dy) by ring.
           rewrite sqrt_square by lra. split; ring.
        -- assert (dy = 0) by lra. subst dy.
           replace (0 * 0) with 0 in Hnorm by ring.
           rewrite sqrt_0 in Hnorm. lra.
Qed.

Lemma distance_pos (o n : point) :
  o <> n -> 0 < distance (fst o) (snd o) (fst n) (snd n).
Proof.
  intros Hne. destruct o as [ox oy], n as [nx ny]. unfold distance. simpl.
  apply sqrt_lt_R0.
  destruct (Req_dec (nx - ox) 0) as [ Hx | Hx ].
  - destruct (Req_dec (ny - oy) 0) as [ Hy | Hy ].
    + exfalso. apply Hne. f_equal; lra.
    + pose proof (Rsqr_pos_lt _ Hy). pose proof (Rle_0_sqr (nx - ox)).
      unfold Rsqr in *. lra.
  - pose proof (Rsqr_pos_lt _ Hx). pose proof (Rle_0_sqr (ny - oy)).
    unfold Rsqr in *. lra.
Qed.

Lemma point_following_path_from_app (pre : path) (w : R) :
  forall (t t' : R) (o : option point) (post : path),
    path_length_from t o pre = Ok t' ->
    t' < w ->
    point_following_path_from t o (pre ++ post)%list w
      = point_following_path_from t' (last_point o pre) post w.
Proof.
  induction pre as [ | item rest IH ]; intros t t' o post H Hw.
  - simpl in *. injection H as <-. reflexivity.
  - destruct item as [ p | p | p1 p2 p3 | ]; simpl in *;
      try (apply IH; assumption).
    destruct o as [ o | ]; [ | discriminate ].
    pose proof (path_length_from_le _ _ _ _ H) as Hle.
    destruct (Rlt_dec (t + distance (fst o) (snd o) (fst p) (snd p)) w);
      [ | lra ].
    apply IH; assumption.
Qed.

(** X6: the point found is the linear interpolation along the segment the
    distance falls on: when the items before a [PATH_LINE_TO] to [n] measure
    [t] and end at [o], a distance [w] past [t] and within the segment
    gives the point at the fraction [(w - t) / |on|] of the way from [o] to
    [n]; the full length of the segment gives [n] itself. *)
Theorem point_between_segment_ends (pre post : path) (o n : point)
    (t w : R) :
  path_length pre = Ok t ->
  last_point None pre = Some o ->
  o <> n ->
  t < w <= t + distance (fst o) (snd o) (fst n) (snd n) ->
  point_following_path (pre ++ PATH_LINE_TO n :: post)%list w =
    Ok (Some (between o n
                ((w - t) / distance (fst o) (snd o) (fst n) (snd n)))) /\
  point_following_path (pre ++ PATH_LINE_TO n :: post)%list
    (t + distance (fst o) (snd o) (fst n) (snd n)) = Ok (Some n).
Proof.
  intros Hlen Hlast Hne [Hlo Hhi].
  pose proof (distance_pos o n Hne) as Hpos.
  assert (Hat : forall w', t < w' <= t + distance (fst o) (snd o) (fst n) (snd n) ->
            point_following_path (pre ++ PATH_LINE_TO n :: post)%list w' =
              Ok (Some (between o n
                ((w' - t) / distance (fst o) (snd o) (fst n) (snd n))))).
  { intros w' [Hlo' Hhi']. unfold point_following_path.
    rewrite (point_following_path_from_app pre w' 0 t None _ Hlen Hlo').
    rewrite Hlast. simpl.
    destruct (Rlt_dec (t + distance (fst o) (snd o) (fst n) (snd n)) w');
      [ lra | ].
    unfold point_angle, between.
    unfold distance in *.
    destruct (atan2_direction (fst n - fst o) (snd n - snd o) Hpos)
      as [Hcos Hsin].
    set (L := sqrt ((fst n - fst o) * (fst n - fst o) +
                    (snd n - snd o) * (snd n - snd o))) in *.
    do 3 f_equal.
    - rewrite <- Hcos at 2. field. lra.
    - rewrite <- Hsin at 2. field. lra. }
  split; [ apply Hat; lra | ].
  rewrite Hat by lra.
  do 2 f_equal. destruct o as [ox oy], n as [nx ny]. unfold between. simpl in *.
  f_equal; field; lra.
Qed.
(** ** Further properties of [text] *)

(** One turn of the loop never raises, whatever the transformation. *)
Lemma text_letter_ok (x_al last_r : R) (pos : position) (letter : string)
    (s : surface) :
  exists (s' : surface) (g : glyph),
    text_letter x_al last_r pos letter s = (Ok tt, s') /\
    ctx_state (context s') = ctx_state (context s) /\
    ctx_saved (context s') = ctx_saved (context s) /\
    ctx_shown (context s') = ctx_shown (context s) /\
    total_width s' = total_width s /\
    paths s' = paths s /\
    ctx_outlines (context s') = (ctx_outlines (context s) ++ [g])%list /\
    glyph_letter g = letter.
Proof.
  destruct pos as [[[[px py] pdx] pdy] pr].
  destruct s as [[g saved cp outl shown] cur tw ps sf].
  cbv [text_letter resolve]. run_statements.
  eexists _, _. split; [ reflexivity | ]. repeat split.
Qed.

Lemma text_letters_ok (x_al last_r : R) (lp : list (position * string)) :
  forall s : surface,
    exists (s' : surface) (gs : list glyph),
      text_letters x_al last_r lp s = (Ok tt, s') /\
      ctx_state (context s') = ctx_state (context s) /\
      ctx_saved (context s') = ctx_saved (context s) /\
      ctx_shown (context s') = ctx_shown (context s) /\
      total_width s' = total_width s /\
      paths s' = paths s /\
      ctx_outlines (context s') = (ctx_outlines (context s) ++ gs)%list /\
      glyph_letter <$> gs = snd <$> lp.
Proof.
  induction lp as [ | [pos letter] rest IH ]; intros s.
  - exists s, []. simpl. rewrite app_nil_r. repeat split.
  - destruct (text_letter_ok x_al last_r pos letter s)
      as (s1 & g & Hrun1 & Hst1 & Hsv1 & Hsh1 & Htw1 & Hp1 & Hol1 & Hg).
    destruct (IH s1) as (s' & gs & Hrun & Hst & Hsv & Hsh & Htw & Hp & Hol & Hgs).
    exists s', (g :: gs).
    rewrite text_letters_cons, Hrun1.
    split; [ exact Hrun | ].
    rewrite Hst, Hsv, Hsh, Htw, Hp, Hol, Hol1, <- app_assoc.
    repeat split; try assumption.
    rewrite !fmap_cons, Hgs, Hg. reflexivity.
Qed.

Lemma zip_letters_letters (word : list string) :
  forall xl yl dxl dyl rl : list R,
    snd <$> zip_letters xl yl dxl dyl rl word = word.
Proof.
  induction word as [ | char word' IH ]; intros; simpl;
    [ | rewrite IH ]; reflexivity.
Qed.

Lemma letters_of_empty (s : string) : letters_of s = [] -> s = "".
Proof. destruct s; [ reflexivity | discriminate ]. Qed.

(** The only exception [rotations] raises is [ValueError], and it raises it
    exactly when a piece is no number. *)
Lemma rotations_raise (pieces : list string) (e : exn) :
  rotations pieces = Raise e <->
  e = ValueError /\ Exists (fun piece => float_of_string piece = None) pieces.
Proof.
  induction pieces as [ | i rest IH ]; simpl.
  - split; [ discriminate | ]. intros [_ H]. inversion H.
  - unfold float. destruct (float_of_string i) as [ deg | ] eqn:Hf.
    + destruct (rotations rest) as [ rs | e' ].
      * split; [ discriminate | ]. intros [He H].
        inversion H as [ ? ? Hi | ? ? Hr ]; subst; [ congruence | ].
        destruct IH as [_ IH]. discriminate IH. split; [ reflexivity | exact Hr ].
      * split.
        -- intros H. injection H as <-.
           destruct IH as [IH _]. destruct (IH eq_refl) as [He Hr].
           split; [ exact He | right; exact Hr ].
        -- intros [He H]. subst e.
           inversion H as [ ? ? Hi | ? ? Hr ]; subst; [ congruence | ].
           f_equal. destruct IH as [IH' IH].
           assert (Hrest : Raise e' = Raise ValueError :> result (list R))
             by (apply IH; split; [ reflexivity | exact Hr ]).
           congruence.
    + split.
      * intros H. injection H as <-. split; [ reflexivity | left; exact Hf ].
      * intros [-> _]. reflexivity.
Qed.

(** X7: [text] raises nothing but [ValueError], and raises it exactly when a
    piece of the [rotate] attribute is no number; the cursor and the
    outlines are then as they were.  Neither an array shorter or longer than
    the text, nor an empty text, nor the state of the context makes it
    raise. *)
Theorem text_raises_on_rotate_only (node : Node) (s : surface) :
  (fst (text node s) = Ok tt \/ fst (text node s) = Raise ValueError) /\
  (fst (text node s) = Raise ValueError <->
   exists v, node_get node "rotate" = Some v /\
             Exists (fun piece => float_of_string piece = None)
                    (split_attr v)) /\
  (fst (text node s) = Raise ValueError ->
   cursor_position (snd (text node s)) = cursor_position s /\
   ctx_outlines (context (snd (text node s))) = ctx_outlines (context s)).
Proof.
  assert (Hrot' : rotations_of (set_default_fill node) = rotations_of node).
  { unfold rotations_of. rewrite set_default_fill_get by discriminate.
    reflexivity. }
  assert (Hraise : forall e, rotations_of node = Raise e ->
            text node s = (Raise e, snd (select_font (set_default_fill node) s))).
  { intros e He. unfold text.
    destruct (select_font_run (set_default_fill node) s) as (f & Hsel).
    cbv [mbind M_bind]. rewrite Hsel.
    cbv [ctx_text_extents mbind M_bind mret M_ret get_surface lift].
    rewrite Hrot', He. reflexivity. }
  assert (Hok : forall rl, rotations_of node = Ok rl -> fst (text node s) = Ok tt).
  { intros rl Hrl. destruct (string_dec (node_text node) "") as [ He | Hne ].
    - unfold text. rewrite set_default_fill_text, He, Hrot', Hrl.
      run_statements. reflexivity.
    - destruct (text_run node s rl Hne Hrl) as (last_r & s1 & _ & _ & Hrun).
      rewrite Hrun.
      match goal with
      | |- fst (text_letters ?a ?b ?c ?d) = _ =>
          destruct (text_letters_ok a b c d) as (s' & gs & Hl & _)
      end.
      rewrite Hl. reflexivity. }
  assert (Hiff : forall e, rotations_of node = Raise e <->
            e = ValueError /\
            exists v, node_get node "rotate" = Some v /\
              Exists (fun piece => float_of_string piece = None) (split_attr v)).
  { intros e. unfold rotations_of.
    destruct (node_get node "rotate") as [ v | ].
    - rewrite rotations_raise. split.
      + intros [He Hex]. split; [ exact He | exists v; split; [ reflexivity | exact Hex ] ].
      + intros [He (v' & Hv & Hex)]. injection Hv as <-. split; assumption.
    - split; [ discriminate | ]. intros [_ (v & Hv & _)]. discriminate. }
  destruct (rotations_of node) as [ rl | e ] eqn:Hrot.
  - specialize (Hok rl eq_refl). rewrite Hok.
    split; [ left; reflexivity | ]. split; [ | discriminate ].
    split; [ discriminate | ].
    intros Hex. destruct (Hiff ValueError) as [_ H].
    discriminate H. split; [ reflexivity | exact Hex ].
  - destruct (Hiff e) as [H _]. destruct (H eq_refl) as [-> Hex].
    rewrite (Hraise ValueError eq_refl).
    destruct (select_font_run (set_default_fill node) s) as (f & Hsel).
    rewrite Hsel. cbn [fst snd cursor_position context ctx_outlines].
    split; [ right; reflexivity | ].
    split; [ split; [ intros _; exact Hex | reflexivity ] | ].
    intros _. split; reflexivity.
Qed.
(** X8: when the [rotate] attribute reads as numbers, [text] adds one glyph
    outline per character of the text, in the order of the text, whatever
    the lengths of the attribute arrays (values past the last character are
    not used); it paints nothing, leaves [total_width], the transformation,
    the source and the stack of saved states as they were. *)
Theorem text_one_outline_per_letter (node : Node) (s : surface)
    (rl : list R) :
  rotations_of node = Ok rl ->
  exists (s' : surface) (gs : list glyph),
    text node s = (Ok tt, s') /\
    ctx_outlines (context s') = (ctx_outlines (context s) ++ gs)%list /\
    glyph_letter <$> gs = letters_of (node_text node) /\
    ctx_shown (context s') = ctx_shown (context s) /\
    total_width s' = total_width s /\
    ctx_saved (context s') = ctx_saved (context s) /\
    ctx_matrix (context s') = ctx_matrix (context s) /\
    gs_source (ctx_state (context s')) = gs_source (ctx_state (context s)).
Proof.
  intros Hrl.
  destruct (select_font_run (set_default_fill node) s) as (f & Hsel).
  destruct (string_dec (node_text node) "") as [ He | Hne ].
  - assert (Hrot' : rotations_of (set_default_fill node) = Ok rl).
    { unfold rotations_of. rewrite set_default_fill_get by discriminate.
      exact Hrl. }
    eexists _, []. split.
    + unfold text. rewrite set_default_fill_text, He, Hrot'.
      cbv [mbind M_bind]. rewrite Hsel.
      cbv [ctx_text_extents mbind M_bind mret M_ret get_surface lift].
      reflexivity.
    + rewrite He, app_nil_r. repeat split.
  - destruct (text_run node s rl Hne Hrl) as (last_r & s1 & _ & Hs1 & Hrun).
    rewrite Hsel in Hs1. injection Hs1 as Hs1.
    match type of Hrun with
    | _ = text_letters ?a ?b ?c ?d =>
        destruct (text_letters_ok a b c d)
          as (s' & gs & Hl & Hst & Hsv & Hsh & Htw & _ & Hol & Hgs)
    end.
    exists s', gs. rewrite Hrun. split; [ exact Hl | ].
    rewrite zip_letters_letters in Hgs.
    unfold ctx_matrix. rewrite Hol, Hsh, Htw, Hsv, Hst, <- Hs1.
    repeat split. exact Hgs.
Qed.

(** The loop of [text] over letters that have no [x] or [y] and no offset
    other than 0: the cursor moves by the sum of the advances. *)
Lemma text_letters_continue (x_al last_r : R) (word : list string) :
  forall (dxl dyl rl : list R) (s : surface),
    Forall (fun d => d = 0) dxl ->
    Forall (fun d => d = 0) dyl ->
    det (ctx_matrix (context s)) <> 0 ->
    exists s',
      text_letters x_al last_r (zip_letters [] [] dxl dyl rl word) s
        = (Ok tt, s') /\
      cursor_position s' =
        (fst (cursor_position s) +
           sum_list ((fun l => x_advance (text_extents (surface_font s) l))
                       <$> word),
         snd (cursor_position s) +
           sum_list ((fun l => y_advance (text_extents (surface_font s) l))
                       <$> word)).
Proof.
  induction word as [ | letter rest IH ]; intros dxl dyl rl s Hdx Hdy Hdet.
  - exists s. split; [ reflexivity | ].
    destruct (cursor_position s) as [cx cy]. simpl. f_equal; ring.
  - cbn [zip_letters]. rewrite text_letters_cons.
    rewrite (text_letter_run _ _ _ _ _ Hdet).
    match goal with
    | |- context [ text_letters _ _ _ ?s1 ] => set (s1' := s1)
    end.
    destruct (IH (tail dxl) (tail dyl) (tail rl) s1') as (s' & Hrun & Hcur).
    + destruct Hdx; [ constructor | assumption ].
    + destruct Hdy; [ constructor | assumption ].
    + exact Hdet.
    + exists s'. split; [ exact Hrun | ].
      assert (Hd0 : default 0 (head dxl) = 0)
        by (destruct Hdx; [ reflexivity | assumption ]).
      assert (Hd1 : default 0 (head dyl) = 0)
        by (destruct Hdy; [ reflexivity | assumption ]).
      rewrite Hcur. subst s1'.
      cbn [cursor_position context ctx_state]. unfold resolve.
      cbn [fst snd]. rewrite Hd0, Hd1.
      change (surface_font (mkSurface _ _ _ _ _)) with (surface_font s).
      rewrite !fmap_cons. cbn [sum_list].
      destruct (cursor_position s) as [cx cy].
      cbv [head default from_option Datatypes.id fst snd].
      f_equal; ring.
Qed.

(** X9: a text node without [x], [y], [dx] and [dy] starts at the cursor
    the previous element left and moves it by the sum of the advances of
    its letters, under the font the node selects; the alignment offset has
    no part in where the cursor ends. *)
Theorem text_continues_from_cursor (node : Node) (s : surface)
    (rl : list R) :
  node_get node "x" = None ->
  node_get node "y" = None ->
  node_get node "dx" = None ->
  node_get node "dy" = None ->
  rotations_of node = Ok rl ->
  det (ctx_matrix (context s)) <> 0 ->
  exists s1 s',
    select_font (set_default_fill node) s = (Ok tt, s1) /\
    text node s = (Ok tt, s') /\
    cursor_position s' =
      (fst (cursor_position s) +
         sum_list ((fun l => x_advance (text_extents (surface_font s1) l))
                     <$> letters_of (node_text node)),
       snd (cursor_position s) +
         sum_list ((fun l => y_advance (text_extents (surface_font s1) l))
                     <$> letters_of (node_text node))).
Proof.
  intros Hx Hy Hdx Hdy Hrl Hdet.
  destruct (select_font_run (set_default_fill node) s) as (f & Hsel).
  eexists _. 
  destruct (string_dec (node_text node) "") as [ He | Hne ].
  - assert (Hrot' : rotations_of (set_default_fill node) = Ok rl).
    { unfold rotations_of. rewrite set_default_fill_get by discriminate.
      exact Hrl. }
    eexists. split; [ exact Hsel | ]. split.
    + unfold text. rewrite set_default_fill_text, He, Hrot'.
      cbv [mbind M_bind]. rewrite Hsel.
      cbv [ctx_text_extents mbind M_bind mret M_ret get_surface lift].
      reflexivity.
    + rewrite He. cbn [cursor_position letters_of fmap list_fmap sum_list].
      destruct (cursor_position s) as [cx cy]. simpl. f_equal; ring.
  - destruct (text_run node s rl Hne Hrl) as (last_r & s1 & _ & Hs1 & Hrun).
    rewrite Hsel in Hs1. injection Hs1 as Hs1.
    unfold lengths_of in Hrun.
    rewrite !set_default_fill_get in Hrun by discriminate.
    rewrite Hx, Hy, Hdx, Hdy in Hrun.
    match type of Hrun with
    | _ = text_letters ?a ?b _ _ =>
        destruct (text_letters_continue a b (letters_of (node_text node))
                    [0] [0] rl s1) as (s' & Hl & Hcur)
    end.
    + repeat constructor.
    + repeat constructor.
    + rewrite <- Hs1. exact Hdet.
    + exists s'. split; [ exact Hsel | ]. split.
      * rewrite Hrun. exact Hl.
      * rewrite Hcur, <- Hs1. reflexivity.
Qed.
(** The loop of [text] run with an alignment offset and run without, from
    surfaces that agree on the graphics state and on the cursor. *)
Lemma text_letters_aligned (x_al last_r : R) (lp : list (position * string)) :
  forall sa s0 : surface,
    det (ctx_matrix (context s0)) <> 0 ->
    ctx_state (context sa) = ctx_state (context s0) ->
    cursor_position sa = cursor_position s0 ->
    exists (sa' s0' : surface) (gsa gs0 : list glyph),
      text_letters x_al last_r lp sa = (Ok tt, sa') /\
      text_letters 0 last_r lp s0 = (Ok tt, s0') /\
      cursor_position sa' = cursor_position s0' /\
      ctx_outlines (context sa') = (ctx_outlines (context sa) ++ gsa)%list /\
      ctx_outlines (context s0') = (ctx_outlines (context s0) ++ gs0)%list /\
      Forall2
        (fun ga g0 =>
           glyph_letter ga = glyph_letter g0 /\
           glyph_matrix ga = glyph_matrix g0 /\
           glyph_origin ga =
             (fst (glyph_origin g0) - xx (ctx_matrix (context s0)) * x_al,
              snd (glyph_origin g0) - yx (ctx_matrix (context s0)) * x_al))
        gsa gs0.
Proof.
  induction lp as [ | [pos letter] rest IH ]; intros sa s0 Hdet Hst Hcur.
  - exists sa, s0, [], []. simpl. rewrite !app_nil_r.
    repeat split; try assumption. constructor.
  - assert (Hdeta : det (ctx_matrix (context sa)) <> 0)
      by (unfold ctx_matrix; rewrite Hst; exact Hdet).
    rewrite !text_letters_cons.
    rewrite (text_letter_run x_al _ _ _ sa Hdeta).
    rewrite (text_letter_run 0 _ _ _ s0 Hdet).
    unfold surface_font, ctx_matrix. rewrite Hst, Hcur.
    fold (ctx_matrix (context s0)). fold (surface_font s0).
    set (p := resolve (cursor_position s0) last_r pos).
    set (te := text_extents (surface_font s0) letter).
    match goal with
    | |- context [ text_letters x_al _ _ ?s1 ] => set (sa1 := s1)
    end.
    match goal with
    | |- context [ text_letters 0 _ _ ?s1 ] => set (s01 := s1)
    end.
    destruct (IH sa1 s01) as (sa' & s0' & gsa & gs0 & Hra & Hr0 & Hc & Hoa & Ho0 & Hg).
    + exact Hdet.
    + reflexivity.
    + subst sa1 s01. cbn [cursor_position fst snd]. f_equal; ring.
    + eexists sa', s0', (_ :: gsa), (_ :: gs0).
      split; [ exact Hra | ]. split; [ exact Hr0 | ]. split; [ exact Hc | ].
      subst sa1 s01. cbn [context ctx_outlines] in Hoa, Ho0.
      rewrite <- app_assoc in Hoa. rewrite <- app_assoc in Ho0.
      split; [ exact Hoa | ]. split; [ exact Ho0 | ].
      constructor; [ | exact Hg ].
      cbn [glyph_letter glyph_matrix glyph_origin].
      split; [ reflexivity | ]. split; [ reflexivity | ].
      unfold transform_point. cbn [fst snd]. f_equal; ring.
Qed.

(** X10: the alignment offset of a run moves every glyph of the run back
    by the same amount along the horizontal axis of the user space, and has
    no effect on the rotation of the glyphs or on where the cursor is when
    the run ends. *)
Theorem alignment_shifts_glyphs_only (x_al last_r : R)
    (lp : list (position * string)) (s : surface) :
  det (ctx_matrix (context s)) <> 0 ->
  exists (sa s0 : surface) (gsa gs0 : list glyph),
    text_letters x_al last_r lp s = (Ok tt, sa) /\
    text_letters 0 last_r lp s = (Ok tt, s0) /\
    cursor_position sa = cursor_position s0 /\
    ctx_outlines (context sa) = (ctx_outlines (context s) ++ gsa)%list /\
    ctx_outlines (context s0) = (ctx_outlines (context s) ++ gs0)%list /\
    Forall2
      (fun ga g0 =>
         glyph_letter ga = glyph_letter g0 /\
         glyph_matrix ga = glyph_matrix g0 /\
         glyph_origin ga =
           (fst (glyph_origin g0) - xx (ctx_matrix (context s)) * x_al,
            snd (glyph_origin g0) - yx (ctx_matrix (context s)) * x_al))
      gsa gs0.
Proof.
  intros Hdet.
  apply (text_letters_aligned x_al last_r lp s s Hdet); reflexivity.
Qed.
(** ** Further properties of [text_path] *)

Lemma painted_letters_cons (cairo_path : path) (w d : R)
    (increments : list R) (letter : string) (letters : list string) :
  painted_letters cairo_path w (d :: increments) (letter :: letters) =
    if has_point cairo_path (w + d)
    then letter :: painted_letters cairo_path (w + d) increments letters
    else painted_letters cairo_path (w + d) increments letters.
Proof.
  unfold painted_letters. simpl.
  destruct (has_point cairo_path (w + d)); reflexivity.
Qed.

(** The loop of [text_path], with the letters it paints. *)
Lemma text_path_letters_painted (node : Node) (cairo_path : path)
    (letter_spacing len rot : R) (letters : list string) :
  path_length cairo_path = Ok len ->
  float (default (PyInt 0) (PyStr <$> node_get node "rotate")) = Ok rot ->
  forall (xy : point) (s : surface),
    exists (s' : surface) (glyphs : list glyph),
      text_path_letters node cairo_path letter_spacing xy letters s
        = (Ok tt, s') /\
      ctx_state (context s') = ctx_state (context s) /\
      ctx_saved (context s') = ctx_saved (context s) /\
      ctx_outlines (context s') = ctx_outlines (context s) /\
      ctx_shown (context s') = (ctx_shown (context s) ++ glyphs)%list /\
      glyph_letter <$> glyphs =
        painted_letters cairo_path (total_width s)
          (increment (surface_font s) letter_spacing <$> letters) letters /\
      cursor_position s' = cursor_position s /\
      paths s' = paths s /\
      stroke_and_fill s' = stroke_and_fill s /\
      total_width s' =
        total_width s +
        sum_list (increment (surface_font s) letter_spacing <$> letters).
Proof.
  intros Hlen Hrot.
  induction letters as [ | letter rest IH ]; intros xy s.
  - exists s, []. simpl. rewrite app_nil_r. repeat split. ring.
  - rewrite fmap_cons, painted_letters_cons. unfold has_point.
    destruct (point_following_path_ok cairo_path len
                (total_width s + increment (surface_font s) letter_spacing letter)
                Hlen) as ([ x2y2 | ] & Hfound); rewrite Hfound.
    + destruct (text_path_letter_placed node cairo_path letter_spacing xy
                  x2y2 letter rest s rot Hfound Hrot) as (cp & Hstep).
      rewrite Hstep.
      match goal with
      | |- context [ text_path_letters _ _ _ _ _ ?s1 ] =>
          destruct (IH x2y2 s1)
            as (s' & glyphs & Hrun & Hst & Hsv & Hol & Hsh & Hgl & Hp & Hps
                & Hsf & Htw)
      end.
      cbn [context ctx_state ctx_saved ctx_outlines ctx_shown
           cursor_position total_width paths stroke_and_fill]
        in Hst, Hsv, Hol, Hsh, Hgl, Hp, Hps, Hsf, Htw.
      match type of Hgl with
      | context [ surface_font (mkSurface ?a ?b ?c ?d ?e) ] =>
          change (surface_font (mkSurface a b c d e)) with (surface_font s)
            in Hgl, Htw
      end.
      eexists s', (_ :: glyphs).
      split; [ exact Hrun | ].
      rewrite <- app_assoc in Hsh.
      split; [ exact Hst | ]. split; [ exact Hsv | ]. split; [ exact Hol | ].
      split; [ exact Hsh | ].
      split; [ rewrite fmap_cons, Hgl; reflexivity | ].
      split; [ exact Hp | ]. split; [ exact Hps | ]. split; [ exact Hsf | ].
      rewrite Htw. cbn [sum_list]. ring.
    + rewrite (text_path_letter_skipped _ _ _ _ _ _ _ Hfound).
      destruct (IH xy (widened s (increment (surface_font s) letter_spacing letter)))
        as (s' & glyphs & Hrun & Hst & Hsv & Hol & Hsh & Hgl & Hp & Hps
            & Hsf & Htw).
      change (surface_font (widened s (increment (surface_font s) letter_spacing letter)))
        with (surface_font s) in Hgl, Htw.
      cbn [widened context total_width cursor_position paths stroke_and_fill]
        in Hst, Hsv, Hol, Hsh, Hgl, Hp, Hps, Hsf, Htw.
      exists s', glyphs.
      split; [ exact Hrun | ].
      split; [ exact Hst | ]. split; [ exact Hsv | ]. split; [ exact Hol | ].
      split; [ exact Hsh | ]. split; [ exact Hgl | ].
      split; [ exact Hp | ]. split; [ exact Hps | ]. split; [ exact Hsf | ].
      rewrite Htw. cbn [sum_list]. ring.
Qed.

(** X11: the letters of a path-text run that are painted are exactly those
    whose value of [total_width], reached by adding the increments of the
    letters up to and including it, has a point on the path; they are
    painted in the order of the text, one glyph each. *)
Theorem painted_letters_of_run (node : Node) (cairo_path : path)
    (letter_spacing len rot : R) (letters : list string) (xy : point)
    (s : surface) :
  path_length cairo_path = Ok len ->
  float (default (PyInt 0) (PyStr <$> node_get node "rotate")) = Ok rot ->
  exists (s' : surface) (glyphs : list glyph),
    text_path_letters node cairo_path letter_spacing xy letters s
      = (Ok tt, s') /\
    ctx_shown (context s') = (ctx_shown (context s) ++ glyphs)%list /\
    glyph_letter <$> glyphs =
      painted_letters cairo_path (total_width s)
        (increment (surface_font s) letter_spacing <$> letters) letters.
Proof.
  intros Hlen Hrot.
  destruct (text_path_letters_painted node cairo_path letter_spacing len rot
              letters Hlen Hrot xy s)
    as (s' & glyphs & Hrun & _ & _ & _ & Hsh & Hgl & _).
  exists s', glyphs. repeat split; assumption.
Qed.
(** Lines 163-194 when the run has an initial point. *)
Lemma text_on_run (node path_node : Node) (s : surface) (len rot : R)
    (xy : point) :
  let cairo_path := copy_path_flat path_node in
  let start_offset :=
    size (default (PyInt 0) (PyStr <$> node_get node "startOffset"))
         (RefLength len) in
  let letter_spacing := size (of_attr (node_get node "letter-spacing")) RefXY in
  let letters := letters_of (node_text node) in
  path_length cairo_path = Ok len ->
  point_following_path cairo_path (total_width s + start_offset)
    = Ok (Some xy) ->
  float (default (PyInt 0) (PyStr <$> node_get node "rotate")) = Ok rot ->
  exists (s' : surface) (glyphs : list glyph),
    text_on node path_node s = (Ok tt, s') /\
    ctx_state (context s') = ctx_state (context s) /\
    ctx_saved (context s') = ctx_saved (context s) /\
    ctx_outlines (context s') = [] /\
    ctx_shown (context s') = (ctx_shown (context s) ++ glyphs)%list /\
    glyph_letter <$> glyphs =
      painted_letters cairo_path (total_width s + start_offset)
        (increment (surface_font s) letter_spacing <$> letters) letters /\
    cursor_position s' = cursor_position s /\
    paths s' = paths s /\
    stroke_and_fill s' = true /\
    total_width s' =
      total_width s + start_offset +
      sum_list (increment (surface_font s) letter_spacing <$> letters).
Proof.
  intros cairo_path start_offset letter_spacing letters Hlen Hxy Hrot.
  destruct s as [[g saved cp outl shown] cur tw ps sf].
  cbn [total_width] in Hxy.
  unfold text_on. run_statements.
  fold cairo_path. rewrite Hlen. fold start_offset. rewrite Hxy.
  fold letter_spacing. fold letters.
  match goal with
  | |- context [ text_path_letters _ _ _ _ _ ?s1 ] =>
      destruct (text_path_letters_painted node cairo_path letter_spacing len
                  rot letters Hlen Hrot xy s1)
        as (s' & glyphs & Hrun & Hst & Hsv & Hol & Hsh & Hgl & Hp & Hps
            & Hsf & Htw)
  end.
  rewrite Hrun.
  cbn [context ctx_state ctx_saved ctx_outlines ctx_shown cursor_position
       total_width paths stroke_and_fill]
    in Hst, Hsv, Hol, Hsh, Hgl, Hp, Hps, Hsf, Htw.
  match type of Hgl with
  | context [ surface_font (mkSurface ?a ?b ?c ?d ?e) ] =>
      change (surface_font (mkSurface a b c d e)) with (gs_font g) in Hgl, Htw
  end.
  destruct s' as [[g' saved' cp' outl' shown'] cur' tw' ps' sf'].
  cbn [context ctx_state ctx_saved ctx_outlines ctx_shown cursor_position
       total_width paths stroke_and_fill]
    in Hst, Hsv, Hol, Hsh, Hgl, Hp, Hps, Hsf, Htw.
  subst.
  eexists _, glyphs. split; [ reflexivity | ].
  cbn [context ctx_state ctx_saved ctx_outlines ctx_shown cursor_position
       total_width paths stroke_and_fill surface_font].
  repeat split. exact Hgl.
Qed.

(** X12: a path-text run whose reference names a known path, with a point
    on the path at its start, ends without raising: the cursor is set to
    the run's own [x] and [y] attributes as [size] reads them, wherever the
    glyphs went; [total_width] has grown by the start offset and by every
    letter's advance and spacing; the transformation and the stack of saved
    states are as before; the glyph outlines collected on the current path
    are discarded; and [stroke_and_fill] is on. *)
Theorem text_path_run (node path_node : Node) (s : surface) (h : string)
    (len rot : R) (xy : point) :
  let cairo_path := copy_path_flat path_node in
  let start_offset :=
    size (default (PyInt 0) (PyStr <$> node_get node "startOffset"))
         (RefLength len) in
  let letter_spacing := size (of_attr (node_get node "letter-spacing")) RefXY in
  let letters := letters_of (node_text node) in
  node_get node xlink_href = Some h ->
  startswith "#" h = true ->
  paths s !! drop_first h = Some path_node ->
  path_length cairo_path = Ok len ->
  point_following_path cairo_path (total_width s + start_offset)
    = Ok (Some xy) ->
  float (default (PyInt 0) (PyStr <$> node_get node "rotate")) = Ok rot ->
  exists (s' : surface) (glyphs : list glyph),
    text_path node s = (Ok tt, s') /\
    cursor_position s' =
      (size (of_attr (node_get node "x")) RefX,
       size (of_attr (node_get node "y")) RefY) /\
    total_width s' =
      total_width s + start_offset +
      sum_list (increment (surface_font s) letter_spacing <$> letters) /\
    ctx_matrix (context s') = ctx_matrix (context s) /\
    ctx_saved (context s') = ctx_saved (context s) /\
    ctx_outlines (context s') = [] /\
    ctx_shown (context s') = (ctx_shown (context s) ++ glyphs)%list /\
    glyph_letter <$> glyphs =
      painted_letters cairo_path (total_width s + start_offset)
        (increment (surface_font s) letter_spacing <$> letters) letters /\
    stroke_and_fill s' = true.
Proof.
  intros cairo_path start_offset letter_spacing letters
         Hh Hs Hp Hlen Hxy Hrot.
  rewrite (text_path_resolved node path_node s h Hh Hs Hp).
  destruct (set_fill_source_run node s) as (src & Hsrc).
  cbv [mbind M_bind]. rewrite Hsrc.
  match goal with
  | |- context [ text_on _ _ ?s1 ] =>
      destruct (text_on_run node path_node s1 len rot xy Hlen Hxy Hrot)
        as (s' & glyphs & Hrun & Hst & Hsv & Hol & Hsh & Hgl & Hc & Hps
            & Hsf & Htw)
  end.
  rewrite Hrun.
  cbn [context ctx_state ctx_saved ctx_outlines ctx_shown cursor_position
       total_width paths stroke_and_fill surface_font gs_font]
    in Hst, Hsv, Hol, Hsh, Hgl, Hc, Hps, Hsf, Htw.
  destruct s' as [[g' saved' cp' outl' shown'] cur' tw' ps' sf'].
  cbn [context ctx_state ctx_saved ctx_outlines ctx_shown cursor_position
       total_width paths stroke_and_fill]
    in Hst, Hsv, Hol, Hsh, Hgl, Hc, Hps, Hsf, Htw.
  subst.
  eexists _, glyphs. split; [ reflexivity | ].
  cbn [context ctx_state ctx_saved ctx_outlines ctx_shown cursor_position
       total_width paths stroke_and_fill ctx_matrix gs_matrix].
  repeat split. exact Hgl.
Qed.


(** What [float] makes of the [rotate] attribute of a path-text node. *)
Lemma float_rotate_raises (node : Node) (e : exn) :
  float (default (PyInt 0) (PyStr <$> node_get node "rotate")) = Raise e <->
  e = ValueError /\
  exists v, node_get node "rotate" = Some v /\ float_of_string v = None.
Proof.
  destruct (node_get node "rotate") as [ v | ]; simpl.
  - destruct (float_of_string v) as [ r | ] eqn:Hf.
    + split; [ discriminate | ].
      intros [_ (v' & Hv & Hn)]. injection Hv as <-. congruence.
    + split.
      * intros H. injection H as <-. split; [ reflexivity | eauto ].
      * intros [-> _]. reflexivity.
  - split; [ discriminate | ]. intros [_ (v & Hv & _)]. discriminate.
Qed.

(** X14: in [text_path] the [rotate] attribute is read once per painted
    letter, inside the loop: when it is no number, a run none of whose
    letters has a point on the path still ends without raising, and a run
    with such a letter raises [ValueError] at the first of them, having
    painted nothing. *)
Theorem path_rotate_read_when_painting (node : Node) (cairo_path : path)
    (letter_spacing len : R) (v : string) (letters : list string) :
  path_length cairo_path = Ok len ->
  node_get node "rotate" = Some v ->
  float_of_string v = None ->
  forall (xy : point) (s : surface),
    let painted :=
      painted_letters cairo_path (total_width s)
        (increment (surface_font s) letter_spacing <$> letters) letters in
    ctx_shown (context (snd (text_path_letters node cairo_path letter_spacing
                                               xy letters s)))
      = ctx_shown (context s) /\
    fst (text_path_letters node cairo_path letter_spacing xy letters s) =
      match painted with
      | [] => Ok tt
      | _ :: _ => Raise ValueError
      end.
Proof.
  intros Hlen Hv Hf.
  assert (Hrot : float (default (PyInt 0) (PyStr <$> node_get node "rotate"))
                 = Raise ValueError).
  { apply float_rotate_raises. split; [ reflexivity | eauto ]. }
  induction letters as [ | letter rest IH ]; intros xy s.
  - split; reflexivity.
  - cbv zeta. rewrite fmap_cons, painted_letters_cons. unfold has_point.
    destruct (point_following_path_ok cairo_path len
                (total_width s + increment (surface_font s) letter_spacing letter)
                Hlen) as ([ [x2 y2] | ] & Hfound); rewrite Hfound.
    + rewrite text_path_letters_cons. cbv zeta.
      cbn [widened total_width]. rewrite Hfound.
      destruct s as [[g saved cp outl shown] cur tw ps sf].
      run_statements. rewrite Hrot. split; reflexivity.
    + rewrite (text_path_letter_skipped _ _ _ _ _ _ _ Hfound).
      destruct (IH xy (widened s (increment (surface_font s) letter_spacing letter)))
        as (Hsh & Hres).
      split; [ exact Hsh | exact Hres ].
Qed.
Lemma has_point_false_onwards (cairo_path : path) (len w w' : R) :
  path_length cairo_path = Ok len ->
  w <= w' ->
  has_point cairo_path w = false ->
  has_point cairo_path w' = false.
Proof.
  intros Hlen Hle. unfold has_point.
  destruct (point_following_path_ok cairo_path len w Hlen)
    as ([ xy | ] & Hw); rewrite Hw; [ discriminate | ].
  intros _. rewrite (point_following_path_none cairo_path w w' Hle Hw).
  reflexivity.
Qed.

Lemma painted_letters_none (cairo_path : path) (len : R)
    (increments : list R) :
  path_length cairo_path = Ok len ->
  forall (w : R) (letters : list string),
    has_point cairo_path w = false ->
    Forall (fun d => 0 <= d) increments ->
    painted_letters cairo_path w increments letters = [].
Proof.
  intros Hlen.
  induction increments as [ | d rest IH ]; intros w letters Hw Hpos.
  - unfold painted_letters. destruct letters; reflexivity.
  - destruct letters as [ | letter letters ]; [ reflexivity | ].
    inversion Hpos as [ | ? ? Hd Hrest ]; subst.
    assert (Hnext : has_point cairo_path (w + d) = false)
      by (apply (has_point_false_onwards cairo_path len w); [ | lra | ];
          assumption).
    rewrite painted_letters_cons, Hnext. apply IH; assumption.
Qed.

Lemma painted_letters_prefix (cairo_path : path) (len : R)
    (increments : list R) :
  path_length cairo_path = Ok len ->
  forall (w : R) (letters : list string),
    Forall (fun d => 0 <= d) increments ->
    exists k : nat,
      painted_letters cairo_path w increments letters = take k letters.
Proof.
  intros Hlen.
  induction increments as [ | d rest IH ]; intros w letters Hpos.
  - exists 0%nat. unfold painted_letters. destruct letters; reflexivity.
  - destruct letters as [ | letter letters ]; [ exists 0%nat; reflexivity | ].
    inversion Hpos as [ | ? ? Hd Hrest ]; subst.
    rewrite painted_letters_cons.
    destruct (has_point cairo_path (w + d)) eqn:Hp.
    + destruct (IH (w + d) letters Hrest) as (k & Hk).
      exists (S k). rewrite Hk. reflexivity.
    + exists 0%nat.
      apply (painted_letters_none cairo_path len rest Hlen); assumption.
Qed.

(** X15: when no letter's advance plus letter spacing is negative, the
    letters a path-text run paints are the first [k] letters of the text,
    for some [k]: the text is cut off where the path ends, and no letter is
    painted after one that was not. *)
Theorem run_truncated_at_path_end (node : Node) (cairo_path : path)
    (letter_spacing len rot : R) (letters : list string) (xy : point)
    (s : surface) :
  path_length cairo_path = Ok len ->
  float (default (PyInt 0) (PyStr <$> node_get node "rotate")) = Ok rot ->
  Forall (fun letter => 0 <= increment (surface_font s) letter_spacing letter)
         letters ->
  exists (k : nat) (s' : surface) (glyphs : list glyph),
    text_path_letters node cairo_path letter_spacing xy letters s
      = (Ok tt, s') /\
    ctx_shown (context s') = (ctx_shown (context s) ++ glyphs)%list /\
    glyph_letter <$> glyphs = take k letters.
Proof.
  intros Hlen Hrot Hpos.
  destruct (text_path_letters_painted node cairo_path letter_spacing len rot
              letters Hlen Hrot xy s)
    as (s' & glyphs & Hrun & _ & _ & _ & Hsh & Hgl & _).
  destruct (painted_letters_prefix cairo_path len
              (increment (surface_font s) letter_spacing <$> letters) Hlen
              (total_width s) letters) as (k & Hk).
  - apply Forall_fmap. exact Hpos.
  - exists k, s', glyphs. rewrite <- Hk. repeat split; assumption.
Qed.

(** ** Further properties of the attributes [text] reads *)

Lemma upper_append (a b : string) : upper (a ++ b) = upper a ++ upper b.
Proof.
  induction a as [ | c a IH ]; simpl; [ | rewrite IH ]; reflexivity.
Qed.

(** X16: the [font-style] and [font-weight] keywords are looked up without
    regard to the case of their ASCII letters: two nodes whose values differ
    only in case select the same slant and the same weight. *)
Theorem font_keywords_ignore_case (node1 node2 : Node) :
  upper (percent_s (node_get node1 "font-style"))
    = upper (percent_s (node_get node2 "font-style")) ->
  upper (percent_s (node_get node1 "font-weight"))
    = upper (percent_s (node_get node2 "font-weight")) ->
  node_font_style node1 = node_font_style node2 /\
  node_font_weight node1 = node_font_weight node2.
Proof.
  intros Hs Hw. unfold node_font_style, node_font_weight.
  rewrite !upper_append, Hs, Hw. split; reflexivity.
Qed.

(** C7: the alignment offset of a run of [text] is computed once, before
    the loop, from the ink width and the left bearing of the whole text
    under the font the node selects: 0 for anchor [start], width/2 + left
    bearing for [middle], width + left bearing for [end]; the loop runs with
    that one offset, so every glyph of the run is moved back by it and the
    cursor ends where it ends without it.  An ink width of 40 with left
    bearing 2 gives 22 for [middle], 42 for [end] and 0 for [start]. *)
Theorem text_anchor_offset (node : Node) (s : surface) (rl : list R) :
  node_text node <> "" ->
  rotations_of node = Ok rl ->
  det (ctx_matrix (context s)) <> 0 ->
  let node' := set_default_fill node in
  let lp :=
    zip_letters (lengths_of node' "x" RefX []) (lengths_of node' "y" RefY [])
                (lengths_of node' "dx" RefX [0])
                (lengths_of node' "dy" RefY [0])
                rl (letters_of (node_text node)) in
  let anchor := node_get node "text-anchor" in
  exists (last_r : R) (s1 sa s0 : surface) (gsa gs0 : list glyph),
    select_font node' s = (Ok tt, s1) /\
    let te := text_extents (surface_font s1) (node_text node) in
    let offset := x_align anchor (width te) (x_bearing te) in
    text node s = text_letters offset last_r lp s1 /\
    text node s = (Ok tt, sa) /\
    text_letters 0 last_r lp s1 = (Ok tt, s0) /\
    ctx_outlines (context sa) = (ctx_outlines (context s) ++ gsa)%list /\
    ctx_outlines (context s0) = (ctx_outlines (context s) ++ gs0)%list /\
    Forall2
      (fun ga g0 =>
         glyph_letter ga = glyph_letter g0 /\
         glyph_matrix ga = glyph_matrix g0 /\
         glyph_origin ga =
           (fst (glyph_origin g0) - xx (ctx_matrix (context s)) * offset,
            snd (glyph_origin g0) - yx (ctx_matrix (context s)) * offset))
      gsa gs0 /\
    cursor_position sa = cursor_position s0 /\
    (anchor = Some "start" -> offset = 0) /\
    (anchor = Some "middle" -> offset = width te / 2 + x_bearing te) /\
    (anchor = Some "end" -> offset = width te + x_bearing te) /\
    (width te = 40 -> x_bearing te = 2 ->
     (anchor = Some "middle" -> offset = 22) /\
     (anchor = Some "end" -> offset = 42) /\
     (anchor = Some "start" -> offset = 0)).
Proof.
  intros Htext Hrot Hdet node' lp anchor.
  destruct (text_run node s rl Htext Hrot) as (last_r & s1 & _ & Hsel & Hrun).
  fold node' in Hsel, Hrun. fold lp in Hrun.
  unfold text_x_align in Hrun.
  replace (node_get node' "text-anchor") with anchor in Hrun
    by (symmetry; apply set_default_fill_get; discriminate).
  destruct (select_font_run node' s) as (f & Hsel').
  assert (Hs1 : context s1 =
                mkContext (mkGstate (ctx_matrix (context s)) f
                                    (gs_source (ctx_state (context s))))
                          (ctx_saved (context s))
                          (ctx_current_point (context s))
                          (ctx_outlines (context s)) (ctx_shown (context s))).
  { rewrite Hsel' in Hsel. injection Hsel as <-. reflexivity. }
  assert (Hdet1 : det (ctx_matrix (context s1)) <> 0)
    by (rewrite Hs1; exact Hdet).
  set (te := text_extents (surface_font s1) (node_text node)) in *.
  set (offset := x_align anchor (width te) (x_bearing te)) in *.
  destruct (text_letters_aligned offset last_r lp s1 s1 Hdet1 eq_refl eq_refl)
    as (sa & s0 & gsa & gs0 & Hra & Hr0 & Hc & Hoa & Ho0 & Hg).
  rewrite Hs1 in Hoa, Ho0, Hg.
  cbn [ctx_outlines ctx_matrix ctx_state gs_matrix] in Hoa, Ho0, Hg.
  exists last_r, s1, sa, s0, gsa, gs0.
  split; [ exact Hsel | ]. cbv zeta. fold te. fold offset.
  split; [ exact Hrun | ].
  split; [ rewrite Hrun; exact Hra | ].
  split; [ exact Hr0 | ]. split; [ exact Hoa | ]. split; [ exact Ho0 | ].
  split; [ exact Hg | ]. split; [ exact Hc | ].
  subst offset. unfold x_align.
  repeat split; intros; subst;
    repeat match goal with
           | H : anchor = Some _ |- _ => rewrite H
           end; simpl; try reflexivity; lra.
Qed.

End Drawers.

(** ** The statements at the sample data *)

Local Abbreviation sample_text :=
  (text sample_size sample_normalize sample_float sample_cairo_attr 0%Z 0%Z
        mono_extents).

Local Abbreviation sample_text_path extents_of :=
  (text_path sample_size sample_float sample_color extents_of sample_flat).

Local Abbreviation sample_text_path_letters extents_of :=
  (text_path_letters sample_size sample_float extents_of).

(** Settles on which side of the path's corners a sample width falls. *)
Ltac measure_sample :=
  unfold increment; simpl;
  repeat match goal with
         | |- context [ Rlt_dec ?a ?b ] => destruct (Rlt_dec a b); try lra
         end;
  try reflexivity; do 3 f_equal; lra.

Lemma transform_point_identity (p : point) :
  transform_point identity_matrix p = p.
Proof. destruct p as [x y]. unfold transform_point. simpl. f_equal; lra. Qed.

Lemma sample_surface_det : det (ctx_matrix (context sample_surface)) <> 0.
Proof. unfold det. simpl. lra. Qed.

Lemma single_move_to_path_witness :
  path_length [PATH_MOVE_TO (0, 0)] = Ok 0 /\
  point_following_path [PATH_MOVE_TO (0, 0)] 1 = Ok None.
Proof. apply (single_move_to_path (0, 0) 1). lra. Defined.

Lemma cursor_after_letter_witness :
  exists s',
    text_letters mono_extents 0 0
      (zip_letters [10; 30] [5; 5] [0] [0] [0] ["a"; "b"; "c"; "d"])
      sample_surface = (Ok tt, s') /\
    glyph_origin <$> ctx_outlines (context s')
      = [(10, 5); (30, 5); (40, 5); (50, 5)] /\
    cursor_position s' = (60, 5).
Proof.
  destruct (cursor_after_letter mono_extents 0 0
              (Some 10) (Some 5) (Some 0) (Some 0) (Some 0) "a"
              sample_surface sample_surface_det)
    as (s1 & Hrun1 & Hcur1 & Hout1 & Hm1).
  assert (Hdet1 : det (ctx_matrix (context s1)) <> 0)
    by (rewrite Hm1; exact sample_surface_det).
  destruct (cursor_after_letter mono_extents 0 0
              (Some 30) (Some 5) None None None "b" s1 Hdet1)
    as (s2 & Hrun2 & Hcur2 & Hout2 & Hm2).
  assert (Hdet2 : det (ctx_matrix (context s2)) <> 0)
    by (rewrite Hm2; exact Hdet1).
  destruct (cursor_after_letter mono_extents 0 0
              None None None None None "c" s2 Hdet2)
    as (s3 & Hrun3 & Hcur3 & Hout3 & Hm3).
  assert (Hdet3 : det (ctx_matrix (context s3)) <> 0)
    by (rewrite Hm3; exact Hdet2).
  destruct (cursor_after_letter mono_extents 0 0
              None None None None None "d" s3 Hdet3)
    as (s4 & Hrun4 & Hcur4 & Hout4 & Hm4).
  exists s4. split; [ | split ].
  - cbn [zip_letters head tail].
    rewrite text_letters_cons, Hrun1, text_letters_cons, Hrun2,
            text_letters_cons, Hrun3, text_letters_cons, Hrun4.
    reflexivity.
  - rewrite Hout4, Hout3, Hout2, Hout1, Hm3, Hm2, Hm1, Hcur3, Hcur2.
    simpl. change (ctx_matrix sample_context) with identity_matrix.
    rewrite !transform_point_identity.
    repeat (apply (f_equal2 cons); [ f_equal; lra | ]).
    reflexivity.
  - rewrite Hcur4, Hcur3, Hcur2. simpl. f_equal; lra.
Defined.

Lemma empty_text_no_layout_witness :
  cursor_position (snd (sample_text empty_node sample_surface)) = (3, 4).
Proof.
  apply (empty_text_no_layout sample_size sample_normalize sample_float
           sample_cairo_attr 0%Z 0%Z mono_extents empty_node sample_surface).
  reflexivity.
Defined.

Lemma attribute_broadcast_witness :
  exists s',
    sample_text rotated_node sample_surface = (Ok tt, s') /\
    glyph_matrix <$> ctx_outlines (context s') =
      (fun deg => matrix_rotate identity_matrix (radians deg))
        <$> [10; 20; 20; 20; 20].
Proof.
  destruct (attribute_broadcast sample_size sample_normalize sample_float
              sample_cairo_attr 0%Z 0%Z mono_extents rotated_node
              sample_surface [radians 10; radians 20])
    as (last_r & s1 & s' & Hlast & _ & _ & _ & _ & Hrun & Hm & _).
  - discriminate.
  - reflexivity.
  - exact sample_surface_det.
  - exists s'. split; [ exact Hrun | ].
    rewrite Hm. injection Hlast as <-. reflexivity.
Defined.

Lemma unresolved_reference_no_op_witness :
  fst (sample_text_path mono_extents plain_node sample_surface) = Ok tt /\
  ctx_shown (context (snd (sample_text_path mono_extents plain_node
                                            sample_surface))) = [] /\
  cursor_position (snd (sample_text_path mono_extents plain_node
                                         sample_surface)) = (3, 4) /\
  total_width (snd (sample_text_path mono_extents plain_node
                                     sample_surface)) = 0.
Proof.
  destruct (unresolved_reference_no_op sample_size sample_float sample_color
              mono_extents sample_flat plain_node sample_surface)
    as (_ & Hok & Hshown & _ & Hcursor & Hwidth & _).
  - left. reflexivity.
  - repeat split; assumption.
Defined.

Lemma total_width_advances_witness :
  exists s',
    sample_text_path_letters mono_extents plain_node corner_path 0 (0, 0)
      ["a"; "b"; "c"; "d"] sample_surface = (Ok tt, s') /\
    total_width s' = 40.
Proof.
  destruct (total_width_advances sample_size sample_float mono_extents
              plain_node corner_path 0 20 0 ["a"; "b"; "c"; "d"] (0, 0)
              sample_surface)
    as (s' & glyphs & Hrun & _ & _ & Hwidth).
  - exact corner_path_length.
  - reflexivity.
  - exists s'. split; [ exact Hrun | ].
    rewrite Hwidth. simpl. lra.
Defined.

Lemma exhausted_letters_skipped_witness :
  exists s' g1 g2,
    sample_text_path_letters mono_extents plain_node corner_path 0 (0, 0)
      ["a"; "b"; "c"; "d"] sample_surface = (Ok tt, s') /\
    ctx_shown (context s') = [g1; g2] /\
    glyph_letter g1 = "a" /\ glyph_letter g2 = "b".
Proof.
  destruct exhausted_letters_skipped with
    (size := sample_size) (float_of_string := sample_float)
    (text_extents := mono_extents) as (_ & _ & Htwo).
  apply (Htwo plain_node corner_path 0 0 (0, 0) (10, 0) (10, 10) "a" "b"
              ["c"; "d"] sample_surface).
  - rewrite corner_path_point. measure_sample.
  - rewrite corner_path_point. measure_sample.
  - unfold increment. simpl.
    repeat constructor; rewrite corner_path_point; measure_sample.
  - reflexivity.
Defined.

Lemma segment_path_length : path_length segment_path = Ok 10.
Proof.
  unfold path_length, segment_path. simpl.
  rewrite distance_horizontal by lra. f_equal. ring.
Qed.

(** C2, counterexample: with a letter spacing of -2 on the segment of
    length 10, the wide W moves [total_width] to 11, past the end of the
    path, and gets no glyph; the narrow i after it moves [total_width] back
    to 10 and is painted. *)
Lemma letter_after_exhaustion_painted :
  point_following_path segment_path
    (total_width sample_surface +
     increment ragged_extents (surface_font sample_surface) (-2) "W")
    = Ok None /\
  exists s' g,
    sample_text_path_letters ragged_extents plain_node segment_path (-2)
      (0, 0) ["W"; "i"] sample_surface = (Ok tt, s') /\
    ctx_shown (context s') = [g] /\
    glyph_letter g = "i".
Proof.
  assert (Hw : point_following_path segment_path
                 (total_width sample_surface +
                  increment ragged_extents (surface_font sample_surface)
                            (-2) "W") = Ok None).
  { rewrite segment_path_point. measure_sample. }
  split; [ exact Hw | ].
  rewrite (text_path_letter_skipped _ _ _ _ _ _ _ _ _ _ Hw).
  match goal with
  | |- context [ text_path_letters _ _ _ _ _ _ _ _ ?s1 ] => set (s1' := s1)
  end.
  destruct (text_path_letter_placed sample_size sample_float ragged_extents
              plain_node segment_path (-2) (0, 0) (10, 0) "i" [] s1' 0)
    as (cp & Hstep).
  - rewrite segment_path_point. subst s1'. measure_sample.
  - reflexivity.
  - rewrite Hstep. eexists _, _. split; [ reflexivity | ].
    split; reflexivity.
Qed.

(** C1: on the segment of length 10, a run that starts 25 units along the
    path finds no initial point; [text_path] then raises [TypeError], having
    painted nothing. *)
Theorem text_path_initial_point_missing :
  exists s',
    sample_text_path mono_extents offset_node sample_surface
      = (Raise TypeError, s') /\
    ctx_shown (context s') = [] /\
    cursor_position s' = (3, 4).
Proof.
  rewrite (text_path_resolved sample_size sample_float sample_color
             mono_extents sample_flat offset_node (mkNode ∅ "segment")
             sample_surface "#p");
    [ | reflexivity | reflexivity | reflexivity ].
  destruct (set_fill_source_run sample_color offset_node sample_surface)
    as (src & Hsrc).
  cbv [mbind M_bind]. rewrite Hsrc.
  match goal with
  | |- context [ text_on _ _ _ _ _ _ ?s1 ] => set (s1' := s1)
  end.
  destruct (text_on_initial_point_missing sample_size sample_float
              mono_extents sample_flat offset_node (mkNode ∅ "segment") s1' 10)
    as (s' & Hrun & Hshown & Hcursor).
  - exact segment_path_length.
  - change (sample_flat (mkNode ∅ "segment")) with segment_path.
    rewrite segment_path_point. subst s1'.
    replace (node_get offset_node "startOffset") with (Some "25")
      by reflexivity.
    measure_sample.
  - rewrite Hrun. exists s'. repeat split; assumption.
Qed.

(** ** The further properties at the sample data *)

Lemma path_length_nonneg_witness : 0 <= 20.
Proof. apply (path_length_nonneg corner_path 20). exact corner_path_length. Defined.

Lemma path_length_subpaths_witness :
  path_length (segment_path ++ PATH_MOVE_TO (0, 0) :: [PATH_LINE_TO (10, 0)])%list
    = Ok (10 + 10).
Proof.
  apply (path_length_subpaths segment_path [PATH_LINE_TO (10, 0)] (0, 0) 10 10).
  - exact segment_path_length.
  - exact segment_path_length.
Defined.

Lemma line_before_move_raises_witness :
  path_length [PATH_CLOSE_PATH; PATH_LINE_TO (1, 1); PATH_MOVE_TO (0, 0)]
    = Raise UnboundLocalError.
Proof.
  destruct (line_before_move_raises
              [PATH_CLOSE_PATH; PATH_LINE_TO (1, 1); PATH_MOVE_TO (0, 0)]
              0 UnboundLocalError) as (_ & _ & H).
  apply (H [PATH_CLOSE_PATH] (1, 1) [PATH_MOVE_TO (0, 0)]); reflexivity.
Defined.

Lemma point_found_up_to_length_witness :
  exists xy, point_following_path corner_path 20 = Ok (Some xy).
Proof.
  destruct (point_found_up_to_length corner_path 20 20) as (_ & H).
  - exact corner_path_length.
  - reflexivity.
  - apply H. lra.
Defined.

Lemma point_between_segment_ends_witness :
  point_following_path
    (segment_path ++ PATH_LINE_TO (10, 10) :: [])%list 15
    = Ok (Some (between (10, 0) (10, 10)
                  ((15 - 10) / distance 10 0 10 10))).
Proof.
  apply (point_between_segment_ends segment_path [] (10, 0) (10, 10) 10 15).
  - exact segment_path_length.
  - reflexivity.
  - intros H. injection H as H. lra.
  - simpl. rewrite distance_vertical by lra. lra.
Defined.

Lemma text_one_outline_per_letter_witness :
  exists s' gs,
    sample_text rotated_node sample_surface = (Ok tt, s') /\
    ctx_outlines (context s') = gs /\
    glyph_letter <$> gs = ["a"; "b"; "c"; "d"; "e"].
Proof.
  destruct (text_one_outline_per_letter sample_size sample_normalize
              sample_float sample_cairo_attr 0%Z 0%Z mono_extents
              rotated_node sample_surface [radians 10; radians 20])
    as (s' & gs & Hrun & Hol & Hgs & _).
  - reflexivity.
  - exists s', gs. repeat split; assumption.
Defined.

Lemma text_continues_from_cursor_witness :
  exists s',
    sample_text plain_node sample_surface = (Ok tt, s') /\
    cursor_position s' = (43, 4).
Proof.
  destruct (text_continues_from_cursor sample_size sample_normalize
              sample_float sample_cairo_attr 0%Z 0%Z mono_extents
              plain_node sample_surface [0])
    as (s1 & s' & _ & Hrun & Hcur); try reflexivity.
  - exact sample_surface_det.
  - exists s'. split; [ exact Hrun | ].
    rewrite Hcur. simpl. f_equal; lra.
Defined.

Lemma alignment_shifts_glyphs_only_witness :
  exists sa s0,
    text_letters mono_extents 22 0
      (zip_letters [10] [5] [0] [0] [0] ["a"; "b"]) sample_surface
      = (Ok tt, sa) /\
    text_letters mono_extents 0 0
      (zip_letters [10] [5] [0] [0] [0] ["a"; "b"]) sample_surface
      = (Ok tt, s0) /\
    cursor_position sa = cursor_position s0.
Proof.
  destruct (alignment_shifts_glyphs_only mono_extents 22 0
              (zip_letters [10] [5] [0] [0] [0] ["a"; "b"]) sample_surface
              sample_surface_det)
    as (sa & s0 & _ & _ & Ha & H0 & Hc & _).
  exists sa, s0. repeat split; assumption.
Defined.

Lemma painted_letters_of_run_witness :
  exists s' glyphs,
    sample_text_path_letters mono_extents plain_node corner_path 0 (0, 0)
      ["a"; "b"; "c"; "d"] sample_surface = (Ok tt, s') /\
    ctx_shown (context s') = glyphs /\
    glyph_letter <$> glyphs = ["a"; "b"].
Proof.
  destruct (painted_letters_of_run sample_size sample_float mono_extents
              plain_node corner_path 0 20 0 ["a"; "b"; "c"; "d"] (0, 0)
              sample_surface)
    as (s' & glyphs & Hrun & Hsh & Hgl).
  - exact corner_path_length.
  - reflexivity.
  - exists s', glyphs. split; [ exact Hrun | ]. split; [ exact Hsh | ].
    rewrite Hgl, !fmap_cons, !painted_letters_cons.
    unfold has_point. rewrite !corner_path_point.
    unfold increment. simpl.
    repeat match goal with
           | |- context [ Rlt_dec ?a ?b ] => destruct (Rlt_dec a b); try lra
           end.
    reflexivity.
Defined.

Lemma text_path_run_witness :
  exists s',
    sample_text_path mono_extents linked_node sample_surface = (Ok tt, s') /\
    cursor_position s' = (0, 0) /\
    total_width s' = 40 /\
    ctx_saved (context s') = [].
Proof.
  destruct (text_path_run sample_size sample_float sample_color mono_extents
              sample_flat linked_node (mkNode ∅ "corner") sample_surface "#c"
              20 0 (0, 0))
    as (s' & glyphs & Hrun & Hcur & Htw & _ & Hsv & _).
  - reflexivity.
  - reflexivity.
  - reflexivity.
  - exact corner_path_length.
  - change (sample_flat (mkNode ∅ "corner")) with corner_path.
    rewrite corner_path_point.
    replace (node_get linked_node "startOffset") with (@None string)
      by reflexivity.
    measure_sample.
  - reflexivity.
  - exists s'. split; [ exact Hrun | ]. split; [ exact Hcur | ].
    split; [ | exact Hsv ].
    rewrite Htw.
    replace (node_get linked_node "startOffset") with (@None string)
      by reflexivity.
    replace (node_get linked_node "letter-spacing") with (@None string)
      by reflexivity.
    unfold increment. simpl. lra.
Defined.


Lemma path_rotate_read_when_painting_witness :
  fst (sample_text_path_letters mono_extents unread_rotate_node segment_path
         0 (0, 0) ["a"; "b"] sample_surface) = Raise ValueError /\
  fst (sample_text_path_letters mono_extents unread_rotate_node segment_path
         5 (0, 0) ["a"; "b"] sample_surface) = Ok tt.
Proof.
  split.
  - destruct (path_rotate_read_when_painting sample_size sample_float
                mono_extents unread_rotate_node segment_path 0 10 "upright"
                ["a"; "b"] segment_path_length eq_refl eq_refl (0, 0)
                sample_surface) as (_ & H).
    rewrite H. rewrite fmap_cons, painted_letters_cons.
    unfold has_point. rewrite segment_path_point.
    unfold increment. simpl.
    destruct (Rlt_dec 10 (0 + (10 * 1 + 0))); [ lra | reflexivity ].
  - destruct (path_rotate_read_when_painting sample_size sample_float
                mono_extents unread_rotate_node segment_path 5 10 "upright"
                ["a"; "b"] segment_path_length eq_refl eq_refl (0, 0)
                sample_surface) as (_ & H).
    rewrite H. rewrite !fmap_cons, !painted_letters_cons.
    unfold has_point. rewrite !segment_path_point.
    unfold increment. simpl.
    repeat match goal with
           | |- context [ Rlt_dec ?a ?b ] => destruct (Rlt_dec a b); try lra
           end.
    reflexivity.
Defined.

Lemma run_truncated_at_path_end_witness :
  exists k s' glyphs,
    sample_text_path_letters mono_extents plain_node corner_path 0 (0, 0)
      ["a"; "b"; "c"; "d"] sample_surface = (Ok tt, s') /\
    ctx_shown (context s') = glyphs /\
    glyph_letter <$> glyphs = take k ["a"; "b"; "c"; "d"].
Proof.
  destruct (run_truncated_at_path_end sample_size sample_float mono_extents
              plain_node corner_path 0 20 0 ["a"; "b"; "c"; "d"] (0, 0)
              sample_surface)
    as (k & s' & glyphs & Hrun & Hsh & Hgl).
  - exact corner_path_length.
  - reflexivity.
  - unfold increment.
    repeat (constructor; [ simpl; lra | ]). constructor.
  - exists k, s', glyphs. repeat split; assumption.
Defined.

Lemma font_keywords_ignore_case_witness :
  node_font_style sample_cairo_attr 0%Z
                  (mkNode (<["font-style" := "italic"]> ∅) "a")
  = node_font_style sample_cairo_attr 0%Z
                    (mkNode (<["font-style" := "Italic"]> ∅) "a").
Proof.
  apply (font_keywords_ignore_case sample_cairo_attr 0%Z 0%Z
           (mkNode (<["font-style" := "italic"]> ∅) "a")
           (mkNode (<["font-style" := "Italic"]> ∅) "a"));
    reflexivity.
Defined.

Lemma text_raises_on_rotate_only_witness :
  fst (sample_text unread_rotate_node sample_surface) = Raise ValueError /\
  cursor_position (snd (sample_text unread_rotate_node sample_surface))
    = (3, 4).
Proof.
  destruct (text_raises_on_rotate_only sample_size sample_normalize
              sample_float sample_cairo_attr 0%Z 0%Z mono_extents
              unread_rotate_node sample_surface) as (_ & Hiff & Hkeep).
  assert (Hraise : fst (sample_text unread_rotate_node sample_surface)
                   = Raise ValueError).
  { apply Hiff. exists "upright". split; [ reflexivity | ].
    left. reflexivity. }
  split; [ exact Hraise | ].
  apply (Hkeep Hraise).
Defined.


Lemma text_anchor_offset_witness :
  exists (offset last_r : R) (s1 sa : surface),
    offset = 22 /\
    text sample_size sample_normalize sample_float sample_cairo_attr 0%Z 0%Z
         inked_extents anchored_node sample_surface
      = text_letters inked_extents offset last_r
          (zip_letters [] [] [0] [0] [0] ["a"; "b"; "c"; "d"; "e"]) s1 /\
    text sample_size sample_normalize sample_float sample_cairo_attr 0%Z 0%Z
         inked_extents anchored_node sample_surface = (Ok tt, sa).
Proof.
  destruct (text_anchor_offset sample_size sample_normalize sample_float
              sample_cairo_attr 0%Z 0%Z inked_extents anchored_node
              sample_surface [0])
    as (last_r & s1 & sa & s0 & gsa & gs0 & _ & Hrun & Hok & _ & _ & _ & _
        & _ & _ & _ & _ & Hnum).
  - discriminate.
  - reflexivity.
  - exact sample_surface_det.
  - eexists _, last_r, s1, sa. split; [ | split; [ exact Hrun | exact Hok ] ].
    apply Hnum.
    + simpl. lra.
    + reflexivity.
    + reflexivity.
Defined.
